(** * OpenAPI MCP server: the spec compiler and the invocation dispatcher

    A shallow embedding of [src/index.ts]: [parseOpenAPISpec] (the compiler
    that turns an OpenAPI document into the tool registry) and the
    [CallToolRequestSchema] handler of [initializeHandlers] (the dispatcher
    that turns a tool call into an axios request configuration).

    Conventions of the embedding.
    - A JavaScript string is the list of its UTF-16 code units ([N]); regular
      expressions without the [u] flag and [split], [join], [trim],
      [substring] and [length] all work on code units, so this is exact.
    - A JavaScript object used as a record of own string-keyed properties, and
      the [Map] of tools, are association lists; [alist_set] keeps the
      position of a key that is already present and appends a new one, which
      is the iteration order of [Map].  An assignment [o[k] = v] to a
      plain object is [object_set], which makes no own property under the
      key [__proto__].
    - Conversion to a string ([String(v)], a template literal, [join]) can
      throw: [ToString] returns the string or the [TypeError].
    - What the language runtime supplies and the source does not define
      (Unicode case conversion, [Number::toString], the WHATWG [URL]
      constructor) is an interface, [Runtime]; a concrete instance for ASCII
      text is given for evaluation.
    - The class methods run in a state-and-exception monad over [World]:
      the registry [this.tools], the lines written with [console.error], and
      the requests handed to [axios]. *)

From Stdlib Require Import List NArith ZArith Bool Lia String Ascii DecimalString.
Import ListNotations.
Set Warnings "-register-all".
Local Open Scope N_scope.
Local Open Scope list_scope.

(** ** Strings *)

Definition codeunit : Type := N.
Definition jsstring : Type := list codeunit.

(** A string literal of the source, as code units. *)
Definition js (s : string) : jsstring :=
  map N_of_ascii (list_ascii_of_string s).

(** [a === b] on two strings. *)
Fixpoint str_eqb (a b : jsstring) : bool :=
  match a, b with
  | [], [] => true
  | x :: a', y :: b' => (x =? y) && str_eqb a' b'
  | _, _ => false
  end.

Definition HYPHEN : codeunit := 45.
Definition SLASH : codeunit := 47.
Definition UNDERSCORE : codeunit := 95.
Definition COMMA : codeunit := 44.

Definition isDigit (c : codeunit) : bool := (48 <=? c) && (c <=? 57).
Definition isUpper (c : codeunit) : bool := (65 <=? c) && (c <=? 90).
Definition isLower (c : codeunit) : bool := (97 <=? c) && (c <=? 122).

(** The character class [[a-zA-Z0-9-]]. *)
Definition isIdChar (c : codeunit) : bool :=
  isLower c || isUpper c || isDigit c || (c =? HYPHEN).

(** The character class [[a-zA-Z0-9_-]]. *)
Definition isNameChar (c : codeunit) : bool :=
  isLower c || isUpper c || isDigit c || (c =? UNDERSCORE) || (c =? HYPHEN).

(** [s.replace(/[^...]/g, by)]: every code unit outside the class [keep]
    is replaced by [by]. *)
Definition replaceOutside (keep : codeunit -> bool) (by_ : codeunit)
    (s : jsstring) : jsstring :=
  map (fun c => if keep c then c else by_) s.

(** [s.replace(/c/g, by)] for a single code unit [c]. *)
Definition replaceAll (c by_ : codeunit) (s : jsstring) : jsstring :=
  map (fun x => if x =? c then by_ else x) s.

(** [s.replace(/^\//, "")]: one leading slash is removed. *)
Definition stripLeadingSlash (s : jsstring) : jsstring :=
  match s with
  | c :: rest => if c =? SLASH then rest else s
  | [] => []
  end.

(** [s.replace(/_{2,}/g, "_")]: a maximal run of two or more underscores
    becomes one underscore (a run of one is left as it is), so every
    maximal run of underscores ends up as a single underscore. *)
Fixpoint collapseUnderscores (s : jsstring) : jsstring :=
  match s with
  | [] => []
  | c :: rest =>
      match rest with
      | d :: _ =>
          if (c =? UNDERSCORE) && (d =? UNDERSCORE)
          then collapseUnderscores rest
          else c :: collapseUnderscores rest
      | [] => [c]
      end
  end.

(** [s.split(sep)] for a one-unit separator: never the empty array. *)
Fixpoint split (sep : codeunit) (s : jsstring) : list jsstring :=
  match s with
  | [] => [[]]
  | c :: rest =>
      if c =? sep then [] :: split sep rest
      else match split sep rest with
           | seg :: segs => (c :: seg) :: segs
           | [] => [[c]]
           end
  end.

(** [parts.join(sep)]. *)
Fixpoint join (sep : jsstring) (parts : list jsstring) : jsstring :=
  match parts with
  | [] => []
  | p :: rest =>
      match rest with
      | [] => p
      | _ :: _ => p ++ sep ++ join sep rest
      end
  end.

Definition startsWithUnit (c : codeunit) (s : jsstring) : bool :=
  match s with
  | x :: _ => x =? c
  | [] => false
  end.

Definition endsWithUnit (c : codeunit) (s : jsstring) : bool :=
  startsWithUnit c (rev s).

(** [s.substring(0, n)]. *)
Definition substring0 (n : nat) (s : jsstring) : jsstring := firstn n s.

(** ECMAScript WhiteSpace and LineTerminator code points, what [trim]
    removes. *)
Definition isWhiteSpace (c : codeunit) : bool :=
  ((9 <=? c) && (c <=? 13)) || (c =? 32) || (c =? 160) || (c =? 5760)
  || ((8192 <=? c) && (c <=? 8202)) || (c =? 8232) || (c =? 8233)
  || (c =? 8239) || (c =? 8287) || (c =? 12288) || (c =? 65279).

Fixpoint trimStart (s : jsstring) : jsstring :=
  match s with
  | c :: rest => if isWhiteSpace c then trimStart rest else s
  | [] => []
  end.

Definition trimEnd (s : jsstring) : jsstring := rev (trimStart (rev s)).

(** [s.trim()]. *)
Definition trim (s : jsstring) : jsstring := trimEnd (trimStart s).

(** [haystack.includes(needle)]. *)
Fixpoint isPrefixOf (p s : jsstring) : bool :=
  match p, s with
  | [], _ => true
  | x :: p', y :: s' => (x =? y) && isPrefixOf p' s'
  | _ :: _, [] => false
  end.

Fixpoint includes (needle haystack : jsstring) : bool :=
  isPrefixOf needle haystack ||
  match haystack with
  | [] => false
  | _ :: rest => includes needle rest
  end.

(** An underscore directly followed by an underscore. *)
Fixpoint hasDoubleUnderscore (s : jsstring) : bool :=
  match s with
  | [] => false
  | c :: rest =>
      match rest with
      | d :: _ =>
          ((c =? UNDERSCORE) && (d =? UNDERSCORE)) || hasDoubleUnderscore rest
      | [] => false
      end
  end.

(** A string that is [core] with white space before and after it. *)
Definition padded (core s : jsstring) : Prop :=
  exists pre post,
    s = pre ++ core ++ post
    /\ Forall (fun c => isWhiteSpace c = true) pre
    /\ Forall (fun c => isWhiteSpace c = true) post.

(** ** Insertion-ordered maps: [Map<string, V>] and plain objects *)

Definition alist (V : Type) : Type := list (jsstring * V).

Fixpoint alist_get {V} (m : alist V) (k : jsstring) : option V :=
  match m with
  | [] => None
  | (k', v) :: rest => if str_eqb k' k then Some v else alist_get rest k
  end.

(** [m.set(k, v)] / [o[k] = v]: an existing key keeps its place. *)
Fixpoint alist_set {V} (m : alist V) (k : jsstring) (v : V) : alist V :=
  match m with
  | [] => [(k, v)]
  | (k', v') :: rest =>
      if str_eqb k' k then (k', v) :: rest
      else (k', v') :: alist_set rest k v
  end.

Definition alist_keys {V} (m : alist V) : list jsstring := map fst m.

(** [o[k] = v] on a plain object [o].  The key [__proto__] is the
    accessor of [Object.prototype]: the assignment sets the prototype (when
    [v] is an object) or does nothing (when it is a string), and in
    neither case makes an own property. *)
Definition object_set {V} (o : alist V) (k : jsstring) (v : V) : alist V :=
  if str_eqb k (js "__proto__") then o else alist_set o k v.

(** [Object.hasOwn(o, k)] on the fields of an object. *)
Definition hasOwn {V} (fields : list (jsstring * V)) (k : jsstring) : bool :=
  existsb (fun field => str_eqb (fst field) k) fields.

(** ** Errors *)

Inductive JsError : Type :=
| Error (message : jsstring)
| TypeError (message : jsstring).

(** The error of converting to a string an object that has no callable
    [toString] or [valueOf] that returns a primitive. *)
Definition notPrimitiveError : JsError :=
  TypeError (js "Cannot convert object to primitive value").

(** [parts.join(sep)] once every part is converted, or the error. *)
Definition joined (sep : jsstring) (parts : JsError + list jsstring)
    : JsError + jsstring :=
  match parts with
  | inl e => inl e
  | inr strings => inr (join sep strings)
  end.

(** ** What the JavaScript runtime supplies *)

Class Runtime : Type := {
  (** the Number values *)
  number : Type;
  (** [String(n)] for a number *)
  Number_toString : number -> jsstring;
  (** a number is falsy when it is [0] or [NaN] *)
  Number_truthy : number -> bool;
  (** [s.toUpperCase()] and [s.toLowerCase()] *)
  toUpperCase : jsstring -> jsstring;
  toLowerCase : jsstring -> jsstring;
  (** [new URL(rel, base).toString()]; [None] when the constructor
      throws its [TypeError] *)
  URL_toString : jsstring -> jsstring -> option jsstring
}.

Section Model.
Context {R : Runtime}.

(** ** Values: what a JSON-decoded request can carry *)

Inductive value : Type :=
| VUndefined
| VNull
| VBool (b : bool)
| VNum (n : number)
| VStr (s : jsstring)
| VArr (elems : list value)
| VObj (fields : list (jsstring * value)).

(** ToBoolean: the test of [if (v)], [!v], [a || b]. *)
Definition truthy (v : value) : bool :=
  match v with
  | VUndefined | VNull => false
  | VBool b => b
  | VNum n => Number_truthy n
  | VStr s => negb (str_eqb s [])
  | VArr _ | VObj _ => true
  end.

(** [String(v)] and template interpolation, for a JSON-decoded value.  An
    array prints as its [join(",")], in which [null] and [undefined]
    elements print as the empty string and the others as their own string,
    left to right.  A plain object prints as [[object Object]] through
    [Object.prototype.toString], unless it has an own member [toString]:
    that member, not being a function, is passed over, [valueOf] gives no
    primitive, and the conversion throws a [TypeError]. *)
Fixpoint ToString (v : value) : JsError + jsstring :=
  match v with
  | VUndefined => inr (js "undefined")
  | VNull => inr (js "null")
  | VBool true => inr (js "true")
  | VBool false => inr (js "false")
  | VNum n => inr (Number_toString n)
  | VStr s => inr s
  | VArr elems =>
      joined [COMMA]
        ((fix each (l : list value) : JsError + list jsstring :=
            match l with
            | [] => inr []
            | e :: rest =>
                match (match e with
                       | VUndefined | VNull => inr []
                       | _ => ToString e
                       end) with
                | inl err => inl err
                | inr s =>
                    match each rest with
                    | inl err => inl err
                    | inr strings => inr (s :: strings)
                    end
                end
            end) elems)
  | VObj fields =>
      if hasOwn fields (js "toString") then inl notPrimitiveError
      else inr (js "[object Object]")
  end.

(** The strings of the elements of an array, as [join] takes them. *)
Fixpoint elementStrings (elems : list value) : JsError + list jsstring :=
  match elems with
  | [] => inr []
  | e :: rest =>
      match (match e with
             | VUndefined | VNull => inr []
             | _ => ToString e
             end) with
      | inl err => inl err
      | inr s =>
          match elementStrings rest with
          | inl err => inl err
          | inr strings => inr (s :: strings)
          end
      end
  end.

(** [elems.join(sep)] on an array of values. *)
Definition Array_join (sep : jsstring) (elems : list value)
    : JsError + jsstring :=
  joined sep (elementStrings elems).

(** A value whose conversion to a string does not throw: no object with
    an own [toString] member, at any depth of arrays. *)
Fixpoint convertible (v : value) : bool :=
  match v with
  | VArr elems => forallb convertible elems
  | VObj fields => negb (hasOwn fields (js "toString"))
  | _ => true
  end.

(** [a === v] where [a] is a string. *)
Definition strictEqualsString (a : jsstring) (v : value) : bool :=
  match v with
  | VStr s => str_eqb a s
  | _ => false
  end.

(** [a || b] on an optional string: the empty string is falsy. *)
Definition orElse (a : option jsstring) (b : jsstring) : jsstring :=
  match a with
  | Some (c :: s) => c :: s
  | Some [] | None => b
  end.

(** ** The OpenAPI document, as far as the compiler reads it *)

Record SchemaObject : Type := { schema_type : option jsstring }.

(** An entry of [operation.parameters]: a parameter object or a reference
    object.  [None] in [param_name] and [param_in] means the key is absent
    (the test is ["name" in param]); [param_schema] is [None] when the
    entry has no [schema]. *)
Record ParameterEntry : Type := {
  param_name : option jsstring;
  param_in : option jsstring;
  param_description : option jsstring;
  param_required : bool;
  param_schema : option SchemaObject
}.

Record OperationObject : Type := {
  op_summary : option jsstring;
  op_description : option jsstring;
  op_parameters : option (list ParameterEntry)
}.

(** [Object.entries] of a path item and of [spec.paths]; [None] is a falsy
    value under the key. *)
Definition PathItemObject : Type := list (jsstring * option OperationObject).
Definition Paths : Type := list (jsstring * option PathItemObject).
Record Document : Type := { paths : Paths }.

(** ** Tools *)

Record PropertySchema : Type := {
  prop_type : jsstring;
  prop_description : jsstring
}.

Record ToolInputSchema : Type := {
  schema_kind : jsstring;
  properties : alist PropertySchema;
  required : option (list jsstring)
}.

Record Tool : Type := {
  tool_name : jsstring;
  tool_description : jsstring;
  inputSchema : ToolInputSchema
}.

(** ** Requests *)

Definition Arguments : Type := option (alist value).

(** [request.params] of a tool call: [id], [name], [arguments]. *)
Record CallToolParams : Type := {
  call_id : value;
  call_name : value;
  call_arguments : Arguments
}.

Record OpenAPIMCPServerConfig : Type := {
  cfg_name : jsstring;
  cfg_version : jsstring;
  apiBaseUrl : jsstring;
  headers : alist jsstring
}.

(** The [config] object handed to [axios]. *)
Record AxiosRequestConfig : Type := {
  ax_method : jsstring;
  ax_url : jsstring;
  ax_headers : alist jsstring;
  ax_params : option (alist jsstring);
  ax_data : Arguments
}.

(** ** Effects *)

Inductive LogArg : Type :=
| LogStr (s : jsstring)
| LogRequest (p : CallToolParams)
| LogArguments (a : Arguments)
| LogQuery (q : alist jsstring)
| LogConfig (c : AxiosRequestConfig).

Record World : Type := {
  config : OpenAPIMCPServerConfig;
  tools : alist Tool;
  stderr : list (list LogArg);
  sent : list AxiosRequestConfig
}.

Definition M (A : Type) : Type := World -> (JsError + A) * World.

Definition ret {A} (a : A) : M A := fun w => (inr a, w).

Definition throw {A} (e : JsError) : M A := fun w => (inl e, w).

Definition bind {A B} (m : M A) (k : A -> M B) : M B :=
  fun w =>
    match m w with
    | (inr a, w') => k a w'
    | (inl e, w') => (inl e, w')
    end.

Definition console_error (line : list LogArg) : M unit :=
  fun w =>
    (inr tt, {| config := config w; tools := tools w;
                stderr := stderr w ++ [line]; sent := sent w |}).

Definition tools_set (toolId : jsstring) (tool : Tool) : M unit :=
  fun w =>
    (inr tt, {| config := config w; tools := alist_set (tools w) toolId tool;
                stderr := stderr w; sent := sent w |}).

Definition this_tools : M (alist Tool) := fun w => (inr (tools w), w).

Definition this_config : M OpenAPIMCPServerConfig :=
  fun w => (inr (config w), w).

(** [axios(config)]: the request leaves the process. *)
Definition axios (c : AxiosRequestConfig) : M unit :=
  fun w =>
    (inr tt, {| config := config w; tools := tools w;
                stderr := stderr w; sent := sent w ++ [c] |}).

Definition liftE {A} (r : JsError + A) : M A :=
  match r with
  | inl e => throw e
  | inr a => ret a
  end.

(** [for (const x of xs) body(x)]. *)
Fixpoint forOf {A} (xs : list A) (body : A -> M unit) : M unit :=
  match xs with
  | [] => ret tt
  | x :: rest => bind (body x) (fun _ => forOf rest body)
  end.

End Model.

Notation "x <- m ;; k" := (bind m (fun x => k))
  (at level 61, m at next level, right associativity).
Notation "m ;;; k" := (bind m (fun _ => k))
  (at level 61, right associativity).

Section Server.
Context {R : Runtime}.

(** ** The spec compiler: [parseOpenAPISpec] *)

(** [cleanPath] and [toolId] of an operation. *)
Definition toolIdOf (method path : jsstring) : jsstring :=
  let cleanPath := stripLeadingSlash path in
  replaceOutside isIdChar HYPHEN (toUpperCase method ++ [HYPHEN] ++ cleanPath).

(** [toolName] of an operation: the summary, or the method and the path
    segments joined with underscores; then cleaned and cut to 64 units. *)
Definition toolNameOf (summary : option jsstring) (method path : jsstring)
    : jsstring :=
  let cleanPath := stripLeadingSlash path in
  let toolName := orElse summary [] in
  let toolName :=
    match toolName with
    | [] => toUpperCase method ++ [UNDERSCORE]
              ++ join [UNDERSCORE] (split SLASH cleanPath)
    | _ :: _ => toolName
    end in
  let toolName :=
    collapseUnderscores (replaceOutside isNameChar UNDERSCORE toolName) in
  if (64 <? List.length toolName)%nat then substring0 64 toolName
  else toolName.

Definition toolDescriptionOf (description : option jsstring)
    (method path : jsstring) : jsstring :=
  orElse description
    (js "Make a " ++ toUpperCase method ++ js " request to " ++ path).

Definition emptyInputSchema : ToolInputSchema :=
  {| schema_kind := js "object"; properties := []; required := None |}.

(** The body of [for (const param of op.parameters)]: an entry with both a
    [name] and an [in] key is assigned to [properties] under its name
    and, when required, is pushed on the lazily created [required] array;
    reading [type] of a missing schema throws. *)
Definition addParameter (schema : ToolInputSchema) (param : ParameterEntry)
    : JsError + ToolInputSchema :=
  match param_name param, param_in param with
  | Some name, Some _ =>
      match param_schema param with
      | None =>
          inl (TypeError (js "Cannot read properties of undefined"))
      | Some paramSchema =>
          let prop :=
            {| prop_type := orElse (schema_type paramSchema) (js "string");
               prop_description :=
                 orElse (param_description param) (name ++ js " parameter") |} in
          let props := object_set (properties schema) name prop in
          inr {| schema_kind := schema_kind schema;
                 properties := props;
                 required :=
                   if param_required param then
                     Some (match required schema with
                           | None => []
                           | Some names => names
                           end ++ [name])
                   else required schema |}
      end
  | _, _ => inr schema
  end.

Fixpoint addParameters (schema : ToolInputSchema)
    (params : list ParameterEntry) : JsError + ToolInputSchema :=
  match params with
  | [] => inr schema
  | param :: rest =>
      match addParameter schema param with
      | inl e => inl e
      | inr schema' => addParameters schema' rest
      end
  end.

(** The body of the inner loop for one (path, method, operation). *)
Definition registerOperation (path method : jsstring) (op : OperationObject)
    : M unit :=
  let toolId := toolIdOf method path in
  let toolName := toolNameOf (op_summary op) method path in
  console_error
    [LogStr (js "Registering tool: " ++ toolId ++ js " (" ++ toolName ++ js ")")] ;;;
  schema <- liftE (match op_parameters op with
                   | Some params => addParameters emptyInputSchema params
                   | None => inr emptyInputSchema
                   end) ;;
  tools_set toolId
    {| tool_name := toolName;
       tool_description := toolDescriptionOf (op_description op) method path;
       inputSchema := schema |}.

Definition parsePathItem (path : jsstring) (pathItem : PathItemObject)
    : M unit :=
  forOf pathItem (fun entry =>
    match snd entry with
    | Some op =>
        if str_eqb (fst entry) (js "parameters") then ret tt
        else registerOperation path (fst entry) op
    | None => ret tt
    end).

Definition parseOpenAPISpec (spec : Document) : M unit :=
  forOf (paths spec) (fun entry =>
    match snd entry with
    | Some pathItem => parsePathItem (fst entry) pathItem
    | None => ret tt
    end).

(** ** The dispatcher: the tool-call handler *)

(** The identifier the registry is asked for when [id] is supplied:
    [typeof id === 'string' ? id.trim() : String(id)]. *)
Definition lookupKey (id : value) : JsError + jsstring :=
  match id with
  | VStr s => inr (trim s)
  | _ => ToString id
  end.

(** [for (const [tid, t] of this.tools.entries()) if (t.name === name)]:
    the first entry in iteration order. *)
Fixpoint findByName (registry : alist Tool) (name : value)
    : option (jsstring * Tool) :=
  match registry with
  | [] => None
  | (tid, t) :: rest =>
      if strictEqualsString (tool_name t) name then Some (tid, t)
      else findByName rest name
  end.

(** "Find tool by ID or name": the values of [tool] and [toolId] after
    the [if (id) ... else if (name) ...], or what the conversion of [id]
    throws. *)
Definition resolveTool (registry : alist Tool) (id name : value)
    : JsError + (option Tool * option jsstring) :=
  if truthy id then
    match lookupKey id with
    | inl e => inl e
    | inr toolId => inr (alist_get registry toolId, Some toolId)
    end
  else if truthy name then
    match findByName registry name with
    | Some (tid, t) => inr (Some t, Some tid)
    | None => inr (None, None)
    end
  else inr (None, None).

(** [const [method, ...pathParts] = toolId.split("-")] and [path]. *)
Definition methodOf (toolId : jsstring) : jsstring :=
  hd [] (split HYPHEN toolId).

Definition pathOf (toolId : jsstring) : jsstring :=
  let pathParts := tl (split HYPHEN toolId) in
  [SLASH] ++ replaceAll HYPHEN SLASH (join [SLASH] pathParts).

Definition baseUrlOf (apiBase : jsstring) : jsstring :=
  if endsWithUnit SLASH apiBase then apiBase else apiBase ++ [SLASH].

Definition cleanPathOf (path : jsstring) : jsstring :=
  if startsWithUnit SLASH path then tl path else path.

(** The body of [for (const [key, value] of Object.entries(params))]. *)
Definition queryStep (queryParams : alist jsstring)
    (entry : jsstring * value) : JsError + alist jsstring :=
  match snd entry with
  | VArr elems =>
      match Array_join [COMMA] elems with
      | inl e => inl e
      | inr s => inr (object_set queryParams (fst entry) s)
      end
  | VUndefined | VNull => inr queryParams
  | v =>
      match ToString v with
      | inl e => inl e
      | inr s => inr (object_set queryParams (fst entry) s)
      end
  end.

(** The loop over the entries, from the object [queryParams]; it stops at
    the first conversion that throws. *)
Fixpoint queryParamsFrom (queryParams : alist jsstring)
    (params : alist value) : JsError + alist jsstring :=
  match params with
  | [] => inr queryParams
  | entry :: rest =>
      match queryStep queryParams entry with
      | inl e => inl e
      | inr queryParams' => queryParamsFrom queryParams' rest
      end
  end.

(** The [queryParams] object built for a GET. *)
Definition queryParamsOf (params : alist value) : JsError + alist jsstring :=
  queryParamsFrom [] params.

(** [config] after the branch on the HTTP method. *)
Definition shapeArguments (method url : jsstring) (hdrs : alist jsstring)
    (params : Arguments) : JsError + AxiosRequestConfig :=
  if str_eqb (toLowerCase method) (js "get") then
    match params with
    | Some entries =>
        match queryParamsOf entries with
        | inl e => inl e
        | inr queryParams =>
            inr {| ax_method := toLowerCase method; ax_url := url;
                   ax_headers := hdrs;
                   ax_params := Some queryParams;
                   ax_data := None |}
        end
    | None =>
        inr {| ax_method := toLowerCase method; ax_url := url;
               ax_headers := hdrs;
               ax_params := None;
               ax_data := None |}
    end
  else
    inr {| ax_method := toLowerCase method; ax_url := url; ax_headers := hdrs;
           ax_params := None;
           ax_data := params |}.

Definition availableTools (registry : alist Tool) : jsstring :=
  js "Available tools: "
  ++ join (js ", ")
       (map (fun entry => fst entry ++ js " (" ++ tool_name (snd entry) ++ js ")")
          registry).

(** The handler, from the request to the call of [axios(config)]; its
    result is the configuration the request is made with.  What follows in
    the source only formats the response or rethrows. *)
Definition callTool (request : CallToolParams) : M AxiosRequestConfig :=
  let id := call_id request in
  let name := call_name request in
  let params := call_arguments request in
  console_error [LogStr (js "Received request:"); LogRequest request] ;;;
  console_error
    [LogStr (js "Using parameters from arguments:"); LogArguments params] ;;;
  registry <- this_tools ;;
  resolved <- liftE (resolveTool registry id name) ;;
  match resolved with
  | (Some tool, Some (c :: s)) =>
      let toolId := c :: s in
      console_error
        [LogStr (js "Executing tool: " ++ toolId ++ js " ("
                 ++ tool_name tool ++ js ")")] ;;;
      cfg <- this_config ;;
      let method := methodOf toolId in
      let path := pathOf toolId in
      let baseUrl := baseUrlOf (apiBaseUrl cfg) in
      let cleanPath := cleanPathOf path in
      match URL_toString cleanPath baseUrl with
      | None => throw (TypeError (js "Invalid URL"))
      | Some url =>
          config <- liftE (shapeArguments method url (headers cfg) params) ;;
          console_error
            [LogStr (js "Processed parameters:");
             match ax_params config with
             | Some q => LogQuery q
             | None => LogArguments (ax_data config)
             end] ;;;
          console_error
            [LogStr (js "Final request config:"); LogConfig config] ;;;
          axios config ;;;
          ret config
      end
  | _ =>
      console_error [LogStr (availableTools registry)] ;;;
      asked <- liftE (ToString (if truthy id then id else name)) ;;
      throw (Error (js "Tool not found: " ++ asked))
  end.

(** ** Vocabulary of the statements *)

(** Every key of the registry of [w] is still a key in [w']. *)
Definition keys_le (w w' : World) : Prop :=
  forall k, alist_get (tools w) k <> None -> alist_get (tools w') k <> None.

(** Every key of the registry consists of [[A-Za-z0-9-]]. *)
Definition idKeys (w : World) : Prop :=
  Forall (Forall (fun c => isIdChar c = true)) (alist_keys (tools w)).

(** What the loop of a GET assigns for an argument [v]: the comma-join of
    an array, nothing for [null] and [undefined], the string form of
    anything else; or what the conversion throws. *)
Definition serialized (v : value) : JsError + option jsstring :=
  match v with
  | VArr elems =>
      match Array_join [COMMA] elems with
      | inl e => inl e
      | inr s => inr (Some s)
      end
  | VUndefined | VNull => inr None
  | _ =>
      match ToString v with
      | inl e => inl e
      | inr s => inr (Some s)
      end
  end.


(** The Tool Name of a registry entry is not [name]. *)
Definition nameDiffers (name : value) (entry : jsstring * Tool) : Prop :=
  strictEqualsString (tool_name (snd entry)) name = false.

(** The two lines every call logs first, and what a failed resolution
    throws: the error made of the converted [id || name], or what that
    conversion throws. *)
Definition received (request : CallToolParams) : list (list LogArg) :=
  [ [LogStr (js "Received request:"); LogRequest request];
    [LogStr (js "Using parameters from arguments:");
     LogArguments (call_arguments request)] ].

Definition notFoundError (request : CallToolParams) : JsError :=
  match ToString (if truthy (call_id request) then call_id request
                  else call_name request) with
  | inr asked => Error (js "Tool not found: " ++ asked)
  | inl e => e
  end.

End Server.

(** ** A runtime for evaluation on ASCII text

    Case conversion on the letters [a-z] and [A-Z], which is what
    [toUpperCase] and [toLowerCase] do to ASCII strings; numbers are the
    integers, printed in decimal; the URL constructor is given on the case
    the handler prepares for, a base that ends in a slash and a reference
    of plain path segments that does not start with one, where the
    reference is appended to the base. *)

Definition asciiUpper (c : codeunit) : codeunit :=
  if isLower c then c - 32 else c.

Definition asciiLower (c : codeunit) : codeunit :=
  if isUpper c then c + 32 else c.

Definition decimal (z : Z) : jsstring :=
  js (NilZero.string_of_int (Z.to_int z)).

Definition appendToBase (rel base : jsstring) : option jsstring :=
  if endsWithUnit SLASH base && negb (startsWithUnit SLASH rel)
  then Some (base ++ rel)
  else None.

Definition asciiRuntime : Runtime :=
  {| number := Z;
     Number_toString := decimal;
     Number_truthy := fun z => negb (Z.eqb z 0);
     toUpperCase := map asciiUpper;
     toLowerCase := map asciiLower;
     URL_toString := appendToBase |}.

(** A sample server state. *)
Definition sampleConfig : @OpenAPIMCPServerConfig :=
  {| cfg_name := js "elevenlabs-mcp-server";
     cfg_version := js "1.0.1";
     apiBaseUrl := js "https://api.elevenlabs.io";
     headers := [(js "Content-Type", js "application/json")] |}.

Definition emptyWorld : @World asciiRuntime :=
  {| config := sampleConfig; tools := []; stderr := []; sent := [] |}.

(** ** A sample document, its registry, and sample calls *)

Definition pageSizeEntry : ParameterEntry :=
  {| param_name := Some (js "page_size"); param_in := Some (js "query");
     param_description := None; param_required := false;
     param_schema := Some {| schema_type := Some (js "integer") |} |}.

Definition searchEntry : ParameterEntry :=
  {| param_name := Some (js "search"); param_in := Some (js "query");
     param_description := Some (js "Search term"); param_required := true;
     param_schema := Some {| schema_type := None |} |}.

(** An entry with a [name] key and no [in] key. *)
Definition sortEntry : ParameterEntry :=
  {| param_name := Some (js "sort"); param_in := None;
     param_description := None; param_required := false;
     param_schema := Some {| schema_type := Some (js "string") |} |}.

Definition listVoices : OperationObject :=
  {| op_summary := Some (js "List voices"); op_description := None;
     op_parameters := Some [pageSizeEntry; searchEntry; sortEntry] |}.

Definition bareOperation : OperationObject :=
  {| op_summary := None; op_description := None; op_parameters := None |}.

Definition voicesItem : PathItemObject :=
  [ (js "parameters", Some bareOperation);
    (js "get", Some listVoices);
    (js "trace", None) ].

Definition sampleDocument : Document :=
  {| paths :=
       [ (js "/v1/voices", Some voicesItem);
         (js "/v1/voices/add", Some [(js "post", Some bareOperation)]);
         (js "/{id}", Some [(js "get", Some bareOperation)]);
         (js "/unused", None) ] |}.

Definition sampleWorld : @World asciiRuntime :=
  snd (parseOpenAPISpec sampleDocument emptyWorld).

(** The descriptor the compiler makes of [listVoices]. *)
Definition listVoicesTool : Tool :=
  {| tool_name := js "List_voices";
     tool_description := js "Make a GET request to /v1/voices";
     inputSchema :=
       {| schema_kind := js "object";
          properties :=
            [ (js "page_size",
               {| prop_type := js "integer";
                  prop_description := js "page_size parameter" |});
              (js "search",
               {| prop_type := js "string";
                  prop_description := js "Search term" |}) ];
          required := Some [js "search"] |} |}.

Definition sampleArguments : @Arguments asciiRuntime :=
  Some [ (js "tags", VArr [VStr (js "a"); VStr (js "b")]);
         (js "page_size", @VNum asciiRuntime 5%Z);
         (js "cursor", VNull) ].

Definition getVoicesCall : @CallToolParams asciiRuntime :=
  {| call_id := VStr (js "GET-v1-voices"); call_name := VUndefined;
     call_arguments := sampleArguments |}.

Definition addVoiceCall : @CallToolParams asciiRuntime :=
  {| call_id := VUndefined; call_name := VStr (js "POST_v1_voices_add");
     call_arguments := Some [(js "name", VStr (js "x"))] |}.

Definition paddedCall : @CallToolParams asciiRuntime :=
  {| call_id := VStr (js " GET-v1-voices "); call_name := VUndefined;
     call_arguments := None |}.

Definition arrayId : @value asciiRuntime := VArr [VStr (js " GET-v1-voices ")].

Definition unknownCall : @CallToolParams asciiRuntime :=
  {| call_id := VStr (js "DELETE-nonexistent"); call_name := VUndefined;
     call_arguments := None |}.

(** The JSON value [{"toString": 1}]; a call that supplies it as the
    [id], with the name of a registered tool; and a GET that has it as an
    argument. *)
Definition oddObject : @value asciiRuntime :=
  VObj [(js "toString", @VNum asciiRuntime 1%Z)].

Definition oddIdCall : @CallToolParams asciiRuntime :=
  {| call_id := oddObject; call_name := VStr (js "List_voices");
     call_arguments := None |}.


(** An entry named [__proto__]. *)
Definition protoEntry : ParameterEntry :=
  {| param_name := Some (js "__proto__"); param_in := Some (js "query");
     param_description := None; param_required := true;
     param_schema := Some {| schema_type := Some (js "string") |} |}.

(** ** The rest of the server

    What the compiler does as a whole, the tool listing, what happens to the
    response of the HTTP call, and the configuration. *)

Section Rest.
Context {R : Runtime}.

(** The (path, method, operation) triples the two loops of
    [parseOpenAPISpec] reach, in the order they reach them: a falsy path
    item, the key [parameters] and a falsy operation are passed over. *)
Definition operationsOfItem (path : jsstring) (pathItem : PathItemObject)
    : list (jsstring * jsstring * OperationObject) :=
  flat_map (fun entry =>
              match snd entry with
              | Some op =>
                  if str_eqb (fst entry) (js "parameters") then []
                  else [(path, fst entry, op)]
              | None => []
              end) pathItem.

Definition operationsOf (spec : Document)
    : list (jsstring * jsstring * OperationObject) :=
  flat_map (fun entry =>
              match snd entry with
              | Some pathItem => operationsOfItem (fst entry) pathItem
              | None => []
              end) (paths spec).

(** [tool.inputSchema] once the loop over [op.parameters] is through. *)
Definition inputSchemaOf (op : OperationObject) : JsError + ToolInputSchema :=
  match op_parameters op with
  | Some params => addParameters emptyInputSchema params
  | None => inr emptyInputSchema
  end.

(** The identifier and the [tool] that [this.tools.set(toolId, tool)] is
    called with for one operation, when the parameter loop does not throw. *)
Definition descriptorOf (triple : jsstring * jsstring * OperationObject)
    : JsError + (jsstring * Tool) :=
  let '(path, method, op) := triple in
  match inputSchemaOf op with
  | inl e => inl e
  | inr schema =>
      inr (toolIdOf method path,
           {| tool_name := toolNameOf (op_summary op) method path;
              tool_description :=
                toolDescriptionOf (op_description op) method path;
              inputSchema := schema |})
  end.

(** The descriptors of a run of operations, up to the first that throws. *)
Fixpoint descriptorsOf (ops : list (jsstring * jsstring * OperationObject))
    : JsError + list (jsstring * Tool) :=
  match ops with
  | [] => inr []
  | triple :: rest =>
      match descriptorOf triple with
      | inl e => inl e
      | inr entry =>
          match descriptorsOf rest with
          | inl e => inl e
          | inr entries => inr (entry :: entries)
          end
      end
  end.

(** A run of [Map.set] calls. *)
Definition setAll {V} (entries : list (jsstring * V)) (m : alist V) : alist V :=
  fold_left (fun m entry => alist_set m (fst entry) (snd entry)) entries m.

(** The last value a run of [Map.set] calls writes under [k]. *)
Definition lastWrite {V} (entries : list (jsstring * V)) (k : jsstring)
    : option V :=
  fold_left (fun last entry =>
               if str_eqb (fst entry) k then Some (snd entry) else last)
    entries None.

(** The body of the inner loop at a triple, and the line it logs first. *)
Definition registerTriple (triple : jsstring * jsstring * OperationObject)
    : M unit :=
  registerOperation (fst (fst triple)) (snd (fst triple)) (snd triple).

Definition registeringLineOf (triple : jsstring * jsstring * OperationObject)
    : list LogArg :=
  let '(path, method, op) := triple in
  [LogStr (js "Registering tool: " ++ toolIdOf method path ++ js " ("
           ++ toolNameOf (op_summary op) method path ++ js ")")].

(** A parameter entry the loop gets through: it is skipped, or it has a
    schema object to read the type from. *)
Definition entryComplete (param : ParameterEntry) : bool :=
  match param_name param, param_in param, param_schema param with
  | Some _, Some _, None => false
  | _, _, _ => true
  end.

(** An entry the loop does not skip. *)
Definition entryDeclared (param : ParameterEntry) : bool :=
  match param_name param, param_in param with
  | Some _, Some _ => true
  | _, _ => false
  end.

Definition entryName (param : ParameterEntry) : jsstring :=
  match param_name param with
  | Some name => name
  | None => []
  end.

(** The character class [[a-zA-Z0-9]]. *)
Definition isAlnum (c : codeunit) : bool :=
  isLower c || isUpper c || isDigit c.

(** The identifier of a triple. *)
Definition identifierOf (triple : jsstring * jsstring * OperationObject)
    : jsstring :=
  toolIdOf (snd (fst triple)) (fst (fst triple)).

(** The entries of [op.parameters], none when the key is absent. *)
Definition parametersOf (op : OperationObject) : list ParameterEntry :=
  match op_parameters op with
  | Some params => params
  | None => []
  end.

(** An entry that is not skipped and whose name is [name]. *)
Definition declares (name : jsstring) (param : ParameterEntry) : Prop :=
  entryDeclared param = true /\ entryName param = name.

(** The property an entry with a schema sets. *)
Definition propertyOf (name : jsstring) (param : ParameterEntry)
    (paramSchema : SchemaObject) : PropertySchema :=
  {| prop_type := orElse (schema_type paramSchema) (js "string");
     prop_description :=
       orElse (param_description param) (name ++ js " parameter") |}.

(** An operation whose parameter loop gets through every entry. *)
Definition operationComplete (op : OperationObject) : bool :=
  match op_parameters op with
  | Some params => forallb entryComplete params
  | None => true
  end.

(** The error of reading [paramSchema.type] when there is no schema. *)
Definition missingSchemaError : JsError :=
  TypeError (js "Cannot read properties of undefined").

(** The properties the entries of [parameters] set (the assignment to
    [__proto__] sets none), and the names they push on [required], in the
    order of the entries. *)
Definition declaredProperties (params : list ParameterEntry)
    : list (jsstring * PropertySchema) :=
  flat_map (fun param =>
              match param_name param, param_in param, param_schema param with
              | Some name, Some _, Some paramSchema =>
                  if str_eqb name (js "__proto__") then []
                  else [(name, propertyOf name param paramSchema)]
              | _, _, _ => []
              end) params.

Definition requiredNames (params : list ParameterEntry) : list jsstring :=
  flat_map (fun param =>
              if entryDeclared param && param_required param
              then [entryName param] else []) params.

(** [required] after more names are pushed. *)
Definition pushed (old : option (list jsstring)) (names : list jsstring)
    : option (list jsstring) :=
  match names with
  | [] => old
  | _ :: _ => Some (match old with
                    | None => []
                    | Some l => l
                    end ++ names)
  end.

(** A name as the compiler makes them, and a registry entry with a name
    and an identifier that are not empty. *)
Definition wellShapedName (name : jsstring) : Prop :=
  name <> []
  /\ (List.length name <= 64)%nat
  /\ Forall (fun c => isNameChar c = true) name
  /\ hasDoubleUnderscore name = false.

Definition callable (entry : jsstring * Tool) : Prop :=
  fst entry <> [] /\ wellShapedName (tool_name (snd entry))
  /\ schema_kind (inputSchema (snd entry)) = js "object".

(** *** The tool listing *)

(** The [ListToolsRequestSchema] handler:
    [Array.from(this.tools.values())]. *)
Definition listTools : M (list Tool) :=
  registry <- this_tools ;;
  ret (map snd registry).

(** *** After the HTTP call *)

Record AxiosResponse : Type := {
  resp_status : value;
  resp_statusText : value;
  resp_headers : value;
  resp_data : value
}.

(** What a [catch] can receive: an ordinary error, or an [AxiosError]
    (the only values [axios.isAxiosError] accepts) with its message and,
    when the server answered, the response. *)
Inductive Thrown : Type :=
| ThrownJs (e : JsError)
| ThrownAxios (message : jsstring) (response : option AxiosResponse).

(** How [await axios(config)] ends. *)
Inductive AxiosOutcome : Type :=
| Fulfilled (response : AxiosResponse)
| Rejected (error : Thrown).

(** One block [{ type: "text", text }] of the result; [text] is [None]
    when [JSON.stringify] returns [undefined]. *)
Record TextContent : Type := { text : option jsstring }.

Definition CallToolResult : Type := list TextContent.

Inductive ResponseLogArg : Type :=
| RLogStr (s : jsstring)
| RLogValue (v : value)
| RLogFailure (status statusText data headers : value).

(** [JSON.stringify(v)] and [JSON.stringify(v, null, 2)], as the runtime
    gives them; [None] is [undefined]. *)
Variable JSON_stringify : value -> option jsstring.
Variable JSON_stringify_pretty : value -> option jsstring.

(** An optional string inside a template literal. *)
Definition interpolate (s : option jsstring) : jsstring :=
  match s with
  | Some s => s
  | None => js "undefined"
  end.

(** [error.response?.field]. *)
Definition responseField (field : AxiosResponse -> value)
    (response : option AxiosResponse) : value :=
  match response with
  | Some r => field r
  | None => VUndefined
  end.

(** The inner [try { await axios(config) ... } catch]: the lines it logs
    and what it returns or throws. *)
Definition handleResponse (outcome : AxiosOutcome)
    : list (list ResponseLogArg) * (Thrown + CallToolResult) :=
  match outcome with
  | Fulfilled response =>
      ([ [RLogStr (js "Response status:"); RLogValue (resp_status response)];
         [RLogStr (js "Response headers:"); RLogValue (resp_headers response)];
         [RLogStr (js "Response data:"); RLogValue (resp_data response)] ],
       inr [{| text := JSON_stringify_pretty (resp_data response) |}])
  | Rejected (ThrownAxios message response) =>
      ([ [RLogStr (js "Request failed:");
          RLogFailure (responseField resp_status response)
            (responseField resp_statusText response)
            (responseField resp_data response)
            (responseField resp_headers response)] ],
       inl (ThrownJs
              (Error (js "API request failed: " ++ message ++ js " - "
                      ++ interpolate
                           (JSON_stringify
                              (responseField resp_data response))))))
  | Rejected (ThrownJs e) => ([], inl (ThrownJs e))
  end.

(** The outer [catch]. *)
Definition outerCatch (error : Thrown) : Thrown :=
  match error with
  | ThrownAxios message _ =>
      ThrownJs (Error (js "API request failed: " ++ message))
  | ThrownJs e => ThrownJs e
  end.

(** The whole [CallToolRequestSchema] handler, given how the network
    answers a request: the result or the error the caller gets, the state
    it leaves, and the lines logged after the request was made. *)
Definition handleCallTool (network : AxiosRequestConfig -> AxiosOutcome)
    (request : CallToolParams) (w : World)
    : (Thrown + CallToolResult) * World * list (list ResponseLogArg) :=
  match callTool request w with
  | (inl e, w') => (inl (outerCatch (ThrownJs e)), w', [])
  | (inr config, w') =>
      match handleResponse (network config) with
      | (lines, inl error) => (inl (outerCatch error), w', lines)
      | (lines, inr result) => (inr result, w', lines)
      end
  end.

End Rest.

(** *** The configuration: [loadConfig] *)

Record ProcessEnv : Type := {
  ELEVENLABS_API_KEY : option jsstring;
  SERVER_VERSION : option jsstring
}.

(** [argv.serverVersion]: the option is declared with the default
    ["1.0.1"], which it has when the command line does not give it. *)
Definition argvServerVersion (given : option jsstring) : jsstring :=
  match given with
  | Some v => v
  | None => js "1.0.1"
  end.

(** [loadConfig]: the warnings written to [console.error], the
    configuration, and the location of the OpenAPI document. *)
Definition loadConfig (serverVersion : option jsstring) (env : ProcessEnv)
    : list jsstring * OpenAPIMCPServerConfig * jsstring :=
  let apiBase := js "https://api.elevenlabs.io" in
  let openApiSpec := js "https://api.elevenlabs.io/openapi.json" in
  let serverName := js "elevenlabs-mcp-server" in
  let '(warnings, hdrs) :=
    match ELEVENLABS_API_KEY env with
    | Some (c :: key) => ([], alist_set [] (js "xi-api-key") (c :: key))
    | Some [] | None =>
        ([js "Warning: ELEVENLABS_API_KEY environment variable not set. API calls will likely fail."],
         [])
    end in
  let hdrs := alist_set hdrs (js "Content-Type") (js "application/json") in
  let version :=
    orElse (Some (argvServerVersion serverVersion))
      (orElse (SERVER_VERSION env) (js "1.0.1")) in
  (warnings,
   {| cfg_name := serverName; cfg_version := version;
      apiBaseUrl := apiBase; headers := hdrs |},
   openApiSpec).

(** ** More samples *)

(** The descriptors of the sample document. *)
Definition sampleEntries : list (jsstring * Tool) :=
  match descriptorsOf (R := asciiRuntime) (operationsOf sampleDocument) with
  | inr entries => entries
  | inl _ => []
  end.

(** An entry with [name] and [in] and no schema. *)
Definition contentEntry : ParameterEntry :=
  {| param_name := Some (js "filter"); param_in := Some (js "query");
     param_description := None; param_required := false;
     param_schema := None |}.

Definition brokenDocument : Document :=
  {| paths :=
       [ (js "/v1/models", Some [(js "get", Some bareOperation)]);
         (js "/v1/history",
          Some [(js "get",
                 Some {| op_summary := None; op_description := None;
                         op_parameters := Some [pageSizeEntry; contentEntry] |})]);
         (js "/v1/user", Some [(js "get", Some bareOperation)]) ] |}.

(** Two entries of one name. *)
Definition limitAsString : ParameterEntry :=
  {| param_name := Some (js "limit"); param_in := Some (js "header");
     param_description := Some (js "Upper bound"); param_required := true;
     param_schema := Some {| schema_type := Some (js "string") |} |}.

Definition limitAsInteger : ParameterEntry :=
  {| param_name := Some (js "limit"); param_in := Some (js "query");
     param_description := None; param_required := true;
     param_schema := Some {| schema_type := Some (js "integer") |} |}.

Definition twiceLimited : OperationObject :=
  {| op_summary := None; op_description := None;
     op_parameters := Some [limitAsString; limitAsInteger] |}.

(** Two paths with one identifier, and two operations with one name. *)
Definition summarized (summary : string) : OperationObject :=
  {| op_summary := Some (js summary); op_description := None;
     op_parameters := None |}.

Definition collidingDocument : Document :=
  {| paths :=
       [ (js "/a/b", Some [(js "get", Some (summarized "First"))]);
         (js "/a-b", Some [(js "get", Some (summarized "Second"))]) ] |}.

Definition pingTool : Tool :=
  {| tool_name := js "Ping";
     tool_description := js "Make a GET request to /a";
     inputSchema := emptyInputSchema |}.

Definition pongTool : Tool :=
  {| tool_name := js "Ping";
     tool_description := js "Make a GET request to /b";
     inputSchema := emptyInputSchema |}.

Definition pingRegistry : alist Tool :=
  [ (js "GET-a", pingTool); (js "GET-b", pongTool) ].

(** A server configured from an environment with a key. *)
Definition keyedEnv : ProcessEnv :=
  {| ELEVENLABS_API_KEY := Some (js "secret"); SERVER_VERSION := None |}.

Definition keyedWorld : @World asciiRuntime :=
  {| config := snd (fst (loadConfig None keyedEnv));
     tools := tools sampleWorld; stderr := []; sent := [] |}.

(** * Properties *)

(** ** Strings and maps *)

Lemma str_eqb_eq (a b : jsstring) : str_eqb a b = true <-> a = b.
Proof.
  revert b; induction a as [|x a IH]; intros [|y b]; simpl;
    try (split; congruence).
  rewrite andb_true_iff, N.eqb_eq, IH. split.
  - intros [-> ->]; reflexivity.
  - intros [= -> ->]; split; reflexivity.
Qed.

Lemma str_eqb_refl (a : jsstring) : str_eqb a a = true.
Proof. apply str_eqb_eq; reflexivity. Qed.

Lemma str_eqb_neq (a b : jsstring) : str_eqb a b = false <-> a <> b.
Proof.
  destruct (str_eqb a b) eqn:E.
  - apply str_eqb_eq in E. split; congruence.
  - split; [intros _ H | reflexivity].
    apply str_eqb_eq in H; congruence.
Qed.

Lemma alist_get_set_same {V} (m : alist V) k v :
  alist_get (alist_set m k v) k = Some v.
Proof.
  induction m as [|[k' v'] m IH]; simpl.
  - now rewrite str_eqb_refl.
  - destruct (str_eqb k' k) eqn:E; simpl; rewrite E; auto.
Qed.

Lemma alist_get_set_other {V} (m : alist V) k k' v :
  k <> k' -> alist_get (alist_set m k v) k' = alist_get m k'.
Proof.
  intros Hne. induction m as [|[k0 v0] m IH]; simpl.
  - apply str_eqb_neq in Hne. now rewrite Hne.
  - destruct (str_eqb k0 k) eqn:E; simpl.
    + apply str_eqb_eq in E; subst k0.
      apply str_eqb_neq in Hne. now rewrite Hne.
    + now rewrite IH.
Qed.

Lemma alist_get_set_keeps {V} (m : alist V) k k' v :
  alist_get m k' <> None -> alist_get (alist_set m k v) k' <> None.
Proof.
  intros H. destruct (str_eqb k k') eqn:E.
  - apply str_eqb_eq in E; subst. rewrite alist_get_set_same. discriminate.
  - apply str_eqb_neq in E. now rewrite alist_get_set_other.
Qed.

Lemma nth_error_replaceOutside keep by_ s i :
  nth_error (replaceOutside keep by_ s) i =
  option_map (fun c => if keep c then c else by_) (nth_error s i).
Proof. unfold replaceOutside. apply nth_error_map. Qed.

(** ** [split] and [join] *)

Lemma split_nonempty sep s : split sep s <> [].
Proof.
  destruct s as [|c rest]; simpl; [discriminate|].
  destruct (c =? sep); [discriminate|].
  destruct (split sep rest); discriminate.
Qed.

Lemma split_cons_other sep c rest :
  (c =? sep) = false ->
  split sep (c :: rest) =
  (c :: hd [] (split sep rest)) :: tl (split sep rest).
Proof.
  intros E. simpl. rewrite E.
  pose proof (split_nonempty sep rest) as Hne.
  destruct (split sep rest); [congruence | reflexivity].
Qed.

Lemma split_app_sep sep a b :
  split sep (a ++ sep :: b) = split sep a ++ split sep b.
Proof.
  induction a as [|c a IH].
  - simpl. now rewrite N.eqb_refl.
  - destruct (c =? sep) eqn:E.
    + simpl. rewrite E, IH. reflexivity.
    + change ((c :: a) ++ sep :: b) with (c :: (a ++ sep :: b)).
      rewrite !split_cons_other, IH by exact E.
      pose proof (split_nonempty sep a) as Hne.
      destruct (split sep a); [congruence | reflexivity].
Qed.

Lemma join_cons2 sep p q rest :
  join sep (p :: q :: rest) = p ++ sep ++ join sep (q :: rest).
Proof. reflexivity. Qed.

Lemma join_split sep s : join [sep] (split sep s) = s.
Proof.
  induction s as [|c rest IH]; [reflexivity|].
  destruct (c =? sep) eqn:E.
  - simpl split. rewrite E.
    pose proof (split_nonempty sep rest) as Hne.
    destruct (split sep rest) as [|q qs]; [congruence|].
    rewrite join_cons2, IH. apply N.eqb_eq in E. now subst.
  - rewrite split_cons_other by exact E.
    pose proof (split_nonempty sep rest) as Hne.
    destruct (split sep rest) as [|q qs]; [congruence|].
    simpl hd. simpl tl. destruct qs as [|q' qs'].
    + simpl in *. now rewrite IH.
    + rewrite join_cons2. rewrite join_cons2 in IH.
      rewrite <- IH. reflexivity.
Qed.

Lemma split_Forall (P : codeunit -> Prop) sep s :
  Forall P s -> Forall (Forall P) (split sep s).
Proof.
  induction 1 as [|c rest Hc Hrest IH]; [repeat constructor|].
  destruct (c =? sep) eqn:E.
  - simpl. rewrite E. constructor; [constructor | exact IH].
  - rewrite split_cons_other by exact E.
    pose proof (split_nonempty sep rest) as Hne.
    destruct (split sep rest) as [|q qs]; [congruence|].
    inversion IH; subst. constructor; [constructor|]; assumption.
Qed.

Lemma split_no_sep sep s :
  Forall (Forall (fun c => c <> sep)) (split sep s).
Proof.
  induction s as [|c rest IH]; [repeat constructor|].
  destruct (c =? sep) eqn:E.
  - simpl. rewrite E. constructor; [constructor | exact IH].
  - rewrite split_cons_other by exact E.
    pose proof (split_nonempty sep rest) as Hne.
    destruct (split sep rest) as [|q qs]; [congruence|].
    inversion IH; subst. constructor; [constructor|]; try assumption.
    now apply N.eqb_neq.
Qed.

Lemma join_Forall (P : codeunit -> Prop) sep parts :
  Forall P sep -> Forall (Forall P) parts -> Forall P (join sep parts).
Proof.
  intros Hsep. induction 1 as [|p rest Hp Hrest IH]; [constructor|].
  destruct rest as [|q rest']; [exact Hp|].
  rewrite join_cons2. apply Forall_app; split; [exact Hp|].
  apply Forall_app; split; [exact Hsep | exact IH].
Qed.

Lemma map_join (f : codeunit -> codeunit) sep parts :
  map f (join sep parts) = join (map f sep) (map (map f) parts).
Proof.
  induction parts as [|p rest IH]; [reflexivity|].
  destruct rest as [|q rest']; [reflexivity|].
  rewrite join_cons2.
  change (map (map f) (p :: q :: rest'))
    with (map f p :: map f q :: map (map f) rest').
  rewrite join_cons2, !map_app, IH. reflexivity.
Qed.

Lemma map_id_on {A} (f : A -> A) (l : list A) :
  Forall (fun x => f x = x) l -> map f l = l.
Proof. induction 1; simpl; congruence. Qed.

Lemma replaceOutside_fixed keep by_ s :
  Forall (fun c => keep c = true) s -> replaceOutside keep by_ s = s.
Proof.
  intros H. apply map_id_on. eapply Forall_impl; [|exact H].
  simpl. intros c ->. reflexivity.
Qed.

Lemma replaceAll_absent c by_ s :
  Forall (fun x => x <> c) s -> replaceAll c by_ s = s.
Proof.
  intros H. apply map_id_on. eapply Forall_impl; [|exact H].
  simpl. intros x Hx. apply N.eqb_neq in Hx. now rewrite Hx.
Qed.

(** ** [trim] and [includes] *)

Lemma trimStart_app_ws pre s :
  Forall (fun c => isWhiteSpace c = true) pre ->
  trimStart (pre ++ s) = trimStart s.
Proof. induction 1 as [|c pre Hc _ IH]; simpl; [|rewrite Hc]; auto. Qed.

Lemma trimStart_stops s c :
  hd_error s = Some c -> isWhiteSpace c = false -> trimStart s = s.
Proof. destruct s; simpl; [discriminate|]. now intros [= ->] ->. Qed.

Lemma trim_padded core s first last :
  hd_error core = Some first -> isWhiteSpace first = false ->
  hd_error (rev core) = Some last -> isWhiteSpace last = false ->
  padded core s -> trim s = core.
Proof.
  intros Hf Hfw Hl Hlw (pre & post & -> & Hpre & Hpost).
  unfold trim, trimEnd.
  rewrite trimStart_app_ws by exact Hpre.
  rewrite (trimStart_stops (core ++ post) first); [| |exact Hfw].
  - rewrite rev_app_distr, trimStart_app_ws.
    + rewrite (trimStart_stops _ last Hl Hlw). apply rev_involutive.
    + apply Forall_rev, Hpost.
  - destruct core; [discriminate | exact Hf].
Qed.

Lemma isPrefixOf_app n rest : isPrefixOf n (n ++ rest) = true.
Proof. induction n as [|c n IH]; simpl; [|rewrite N.eqb_refl]; auto. Qed.

Lemma includes_skip n pre h :
  includes n h = true -> includes n (pre ++ h) = true.
Proof.
  intros H. induction pre as [|c pre IH]; [exact H|].
  simpl. rewrite IH. apply orb_true_r.
Qed.

Lemma includes_infix n pre post : includes n (pre ++ n ++ post) = true.
Proof.
  apply includes_skip. destruct n as [|c n]; [destruct post; reflexivity|].
  change (includes (c :: n) ((c :: n) ++ post))
    with (isPrefixOf (c :: n) ((c :: n) ++ post)
          || includes (c :: n) (n ++ post)).
  now rewrite isPrefixOf_app.
Qed.

Lemma join_infix sep parts p :
  In p parts -> exists pre post, join sep parts = pre ++ p ++ post.
Proof.
  induction parts as [|q rest IH]; [contradiction|].
  intros [->|Hin].
  - exists []. destruct rest as [|r rest'].
    + exists []. simpl. now rewrite app_nil_r.
    + exists (sep ++ join sep (r :: rest')). reflexivity.
  - destruct rest as [|r rest']; [contradiction|].
    destruct (IH Hin) as (pre & post & E).
    exists (q ++ sep ++ pre), post.
    rewrite join_cons2, E, <- !app_assoc. reflexivity.
Qed.

Lemma includes_join prefix sep parts p :
  In p parts -> includes p (prefix ++ join sep parts) = true.
Proof.
  intros Hin. destruct (join_infix sep _ _ Hin) as (pre & post & ->).
  apply includes_skip, includes_infix.
Qed.

Section Proofs.
Context {R : Runtime}.

(** [String(array)] is [array.join(",")]. *)
Lemma ToString_array (elems : list value) :
  ToString (VArr elems) = Array_join [COMMA] elems.
Proof.
  unfold Array_join. cbn [ToString]. f_equal.
Qed.

(** Induction on a value and on the elements of its arrays. *)
Lemma value_elems_ind (P : value -> Prop) :
  P VUndefined -> P VNull -> (forall b, P (VBool b)) ->
  (forall n, P (VNum n)) -> (forall s, P (VStr s)) ->
  (forall elems, Forall P elems -> P (VArr elems)) ->
  (forall fields, P (VObj fields)) ->
  forall v, P v.
Proof.
  intros Hu Hn Hb Hnum Hs Harr Hobj.
  fix IH 1.
  intros [ | |b|n|s|elems|fields];
    [exact Hu | exact Hn | apply Hb | apply Hnum | apply Hs | | apply Hobj].
  apply Harr. induction elems as [|e rest IHrest]; [constructor|].
  constructor; [apply IH | exact IHrest].
Qed.

(** The only error of a conversion is that of an object that cannot be
    made a primitive, and the conversion throws exactly on the values that
    are not [convertible]. *)
Lemma ToString_cases (v : value) :
  if convertible v then exists s, ToString v = inr s
  else ToString v = inl notPrimitiveError.
Proof.
  induction v as [ | |b|n|s|elems IH|fields] using value_elems_ind;
    try (cbn; eexists; reflexivity).
  - destruct b; cbn; eexists; reflexivity.
  - rewrite ToString_array. unfold Array_join. cbn [convertible].
    induction IH as [|e rest He _ IHrest]; [cbn; eexists; reflexivity|].
    cbn [forallb elementStrings].
    destruct (convertible e) eqn:Ee.
    + destruct He as [s Hs].
      assert (Hhead : exists s',
                 match e with VUndefined | VNull => inr [] | _ => ToString e end
                 = inr s')
        by (destruct e; eexists; try reflexivity; exact Hs).
      destruct Hhead as [s' ->]. cbn [andb].
      destruct (forallb convertible rest).
      * destruct IHrest as [j Hj].
        destruct (elementStrings rest) as [e'|strings]; [discriminate|].
        cbn. eexists; reflexivity.
      * destruct (elementStrings rest) as [e'|strings]; [|discriminate].
        cbn in IHrest. injection IHrest as ->. reflexivity.
    + cbn [andb].
      assert (Hhead :
                 match e with VUndefined | VNull => inr [] | _ => ToString e end
                 = inl notPrimitiveError)
        by (destruct e; try discriminate; exact He).
      rewrite Hhead. reflexivity.
  - cbn [convertible ToString].
    destruct (hasOwn fields (js "toString")); cbn [negb];
      [reflexivity | eexists; reflexivity].
Qed.

Lemma ToString_convertible (v : value) :
  convertible v = true -> exists s, ToString v = inr s.
Proof. intros H. pose proof (ToString_cases v) as C. now rewrite H in C. Qed.

Lemma ToString_not_convertible (v : value) :
  convertible v = false -> ToString v = inl notPrimitiveError.
Proof. intros H. pose proof (ToString_cases v) as C. now rewrite H in C. Qed.


(** ** The compiler only ever adds keys to the registry *)

Lemma keys_le_refl w : keys_le w w.
Proof. intros k H; exact H. Qed.

Lemma keys_le_trans w1 w2 w3 : keys_le w1 w2 -> keys_le w2 w3 -> keys_le w1 w3.
Proof. intros H1 H2 k H; auto. Qed.

Lemma registerOperation_ok path method op w w' :
  registerOperation path method op w = (inr tt, w') ->
  alist_get (tools w') (toolIdOf method path) <> None /\ keys_le w w'.
Proof.
  unfold registerOperation, bind, console_error, tools_set, liftE.
  destruct (match op_parameters op with
            | Some params => addParameters emptyInputSchema params
            | None => inr emptyInputSchema
            end) as [e|schema]; simpl.
  - unfold throw. discriminate.
  - unfold ret. intros [= <-]; simpl. split.
    + rewrite alist_get_set_same. discriminate.
    + intros k Hk. simpl. now apply alist_get_set_keeps.
Qed.

Lemma forOf_keys_le {A} (body : A -> M unit) :
  (forall x w w', body x w = (inr tt, w') -> keys_le w w') ->
  forall xs w w', forOf xs body w = (inr tt, w') -> keys_le w w'.
Proof.
  intros Hbody xs. induction xs as [|x xs IH]; simpl; intros w w' H.
  - unfold ret in H. injection H as <-. apply keys_le_refl.
  - unfold bind in H. destruct (body x w) as [[e|[]] w1] eqn:E; [discriminate|].
    eapply keys_le_trans; [eapply Hbody; eauto | eapply IH; eauto].
Qed.

Lemma forOf_In {A} (body : A -> M unit) :
  (forall x w w', body x w = (inr tt, w') -> keys_le w w') ->
  forall xs w w' x, forOf xs body w = (inr tt, w') -> In x xs ->
  exists w1 w2, body x w1 = (inr tt, w2) /\ keys_le w2 w'.
Proof.
  intros Hbody xs. induction xs as [|y xs IH]; simpl; intros w w' x H Hin.
  - contradiction.
  - unfold bind in H. destruct (body y w) as [[e|[]] w1] eqn:E; [discriminate|].
    destruct Hin as [->|Hin].
    + exists w, w1. split; [exact E|]. eapply forOf_keys_le; eauto.
    + eapply IH; eauto.
Qed.

Lemma parsePathItem_body_le path (entry : jsstring * option OperationObject) w w' :
  match snd entry with
  | Some op =>
      if str_eqb (fst entry) (js "parameters") then ret tt
      else registerOperation path (fst entry) op
  | None => ret tt
  end w = (inr tt, w') -> keys_le w w'.
Proof.
  destruct entry as [m [op|]]; simpl.
  - destruct (str_eqb m (js "parameters")).
    + unfold ret. intros [= <-]. apply keys_le_refl.
    + intros H. now apply registerOperation_ok in H.
  - unfold ret. intros [= <-]. apply keys_le_refl.
Qed.

Lemma parsePathItem_le path item w w' :
  parsePathItem path item w = (inr tt, w') -> keys_le w w'.
Proof.
  unfold parsePathItem. apply forOf_keys_le.
  intros x w0 w0'. apply parsePathItem_body_le.
Qed.

Lemma parsePathItem_registers path item w w' method op :
  parsePathItem path item w = (inr tt, w') ->
  In (method, Some op) item -> method <> js "parameters" ->
  alist_get (tools w') (toolIdOf method path) <> None.
Proof.
  unfold parsePathItem. intros H Hin Hne.
  destruct (forOf_In _ (fun x w0 w0' => parsePathItem_body_le path x w0 w0')
              _ _ _ _ H Hin) as (w1 & w2 & Hb & Hle).
  simpl in Hb.
  apply str_eqb_neq in Hne. rewrite Hne in Hb.
  apply registerOperation_ok in Hb. destruct Hb as [Hb _]. apply Hle, Hb.
Qed.

(** C1.  For every (path, method) pair the compiler processes (an operation
    is present under the method and the method is not [parameters]), the
    registry that a successful compilation leaves holds an entry under the
    derived Tool Identifier, and that identifier is, position by position,
    the string [METHOD-path] (the method in upper case, a hyphen, the path
    without its leading slash) in which every code unit outside
    [[A-Za-z0-9-]] is replaced by a hyphen. *)
Theorem C1_tool_identifier_derivation
    (spec : Document) (w w' : World)
    (path method : jsstring) (item : PathItemObject) (op : OperationObject)
    (Hrun : parseOpenAPISpec spec w = (inr tt, w'))
    (Hpath : In (path, Some item) (paths spec))
    (Hop : In (method, Some op) item)
    (Hmethod : method <> js "parameters") :
  let source := toUpperCase method ++ [HYPHEN] ++ stripLeadingSlash path in
  let toolId := toolIdOf method path in
  (exists tool, alist_get (tools w') toolId = Some tool)
  /\ List.length toolId = List.length source
  /\ (forall i c, nth_error source i = Some c ->
        nth_error toolId i = Some (if isIdChar c then c else HYPHEN)).
Proof.
  intros source toolId. split; [|split].
  - unfold parseOpenAPISpec in Hrun.
    assert (Hbody : forall (x : jsstring * option PathItemObject) w0 w0',
               match snd x with
               | Some pathItem => parsePathItem (fst x) pathItem
               | None => ret tt
               end w0 = (inr tt, w0') -> keys_le w0 w0').
    { intros [p [it|]] w0 w0'; simpl.
      - apply parsePathItem_le.
      - unfold ret. intros [= <-]. apply keys_le_refl. }
    destruct (forOf_In _ Hbody _ _ _ _ Hrun Hpath) as (w1 & w2 & Hb & Hle).
    simpl in Hb.
    pose proof (parsePathItem_registers _ _ _ _ _ _ Hb Hop Hmethod) as Hk.
    apply Hle in Hk. fold toolId in Hk.
    destruct (alist_get (tools w') toolId) as [t|]; [eauto | congruence].
  - unfold toolId, toolIdOf, replaceOutside. apply length_map.
  - intros i c Hc. unfold toolId, toolIdOf.
    rewrite nth_error_replaceOutside. fold source. now rewrite Hc.
Qed.

(** ** Tool names *)

Lemma collapseUnderscores_cons2 c d rest :
  collapseUnderscores (c :: d :: rest) =
  if (c =? UNDERSCORE) && (d =? UNDERSCORE)
  then collapseUnderscores (d :: rest)
  else c :: collapseUnderscores (d :: rest).
Proof. reflexivity. Qed.

Lemma hasDoubleUnderscore_cons2 c d rest :
  hasDoubleUnderscore (c :: d :: rest) =
  ((c =? UNDERSCORE) && (d =? UNDERSCORE)) || hasDoubleUnderscore (d :: rest).
Proof. reflexivity. Qed.

Lemma collapseUnderscores_head c rest :
  exists t, collapseUnderscores (c :: rest) = c :: t.
Proof.
  revert c. induction rest as [|d rest IH]; intros c.
  - exists []. reflexivity.
  - rewrite collapseUnderscores_cons2.
    destruct ((c =? UNDERSCORE) && (d =? UNDERSCORE)) eqn:E.
    + apply andb_true_iff in E. destruct E as [Ec Ed].
      apply N.eqb_eq in Ec, Ed. subst c.
      destruct (IH d) as [t Ht]. exists t.
      rewrite Ht, Ed. reflexivity.
    + eexists. reflexivity.
Qed.

Lemma collapseUnderscores_no_double s :
  hasDoubleUnderscore (collapseUnderscores s) = false.
Proof.
  induction s as [|c rest IH]; [reflexivity|].
  destruct rest as [|d rest']; [reflexivity|].
  rewrite collapseUnderscores_cons2.
  destruct ((c =? UNDERSCORE) && (d =? UNDERSCORE)) eqn:E; [exact IH|].
  destruct (collapseUnderscores_head d rest') as [t Ht].
  rewrite Ht in *. rewrite hasDoubleUnderscore_cons2, E. exact IH.
Qed.

Lemma collapseUnderscores_Forall (P : codeunit -> Prop) s :
  Forall P s -> Forall P (collapseUnderscores s).
Proof.
  induction 1 as [|c rest Hc Hrest IH]; [constructor|].
  destruct rest as [|d rest']; [repeat constructor; exact Hc|].
  rewrite collapseUnderscores_cons2.
  destruct ((c =? UNDERSCORE) && (d =? UNDERSCORE)); [exact IH|].
  constructor; assumption.
Qed.

Lemma hasDoubleUnderscore_firstn n s :
  hasDoubleUnderscore s = false -> hasDoubleUnderscore (firstn n s) = false.
Proof.
  revert s. induction n as [|n IH]; intros s H; [reflexivity|].
  destruct s as [|c rest]; [reflexivity|].
  destruct rest as [|d rest'].
  - destruct n; reflexivity.
  - rewrite hasDoubleUnderscore_cons2 in H. apply orb_false_iff in H.
    destruct H as [Hcd Hrest].
    specialize (IH (d :: rest') Hrest).
    destruct n as [|n']; [reflexivity|].
    change (firstn (S (S n')) (c :: d :: rest'))
      with (c :: d :: firstn n' rest').
    change (firstn (S n') (d :: rest')) with (d :: firstn n' rest') in IH.
    rewrite hasDoubleUnderscore_cons2, Hcd. exact IH.
Qed.

Lemma hasDoubleUnderscore_nth s :
  hasDoubleUnderscore s = false ->
  forall i, nth_error s i = Some UNDERSCORE ->
            nth_error s (S i) <> Some UNDERSCORE.
Proof.
  induction s as [|c rest IH]; intros H i Hi.
  - destruct i; discriminate.
  - destruct rest as [|d rest'].
    + destruct i; simpl; discriminate.
    + rewrite hasDoubleUnderscore_cons2 in H. apply orb_false_iff in H.
      destruct H as [Hcd Hrest].
      destruct i as [|i].
      * simpl in Hi. injection Hi as ->. simpl. intros [= ->].
        discriminate.
      * simpl in Hi. apply (IH Hrest i Hi).
Qed.

Lemma Forall_firstn_keeps {A} (P : A -> Prop) n (l : list A) :
  Forall P l -> Forall P (firstn n l).
Proof.
  revert l. induction n as [|n IH]; intros l H; [constructor|].
  destruct H as [|x l Hx Hl]; [constructor|].
  simpl. constructor; auto.
Qed.

Lemma replaceOutside_isNameChar s :
  Forall (fun c => isNameChar c = true)
    (replaceOutside isNameChar UNDERSCORE s).
Proof.
  unfold replaceOutside. apply Forall_map, Forall_forall. intros c _.
  destruct (isNameChar c) eqn:E; [exact E | reflexivity].
Qed.

(** C5.  Whatever the summary, the method and the path are, the Tool Name
    has at most 64 code units, every one of them is in [[A-Za-z0-9_-]],
    and no underscore is followed by another underscore. *)
Theorem C5_tool_name_shape (summary : option jsstring) (method path : jsstring) :
  let toolName := toolNameOf summary method path in
  (List.length toolName <= 64)%nat
  /\ Forall (fun c => isNameChar c = true) toolName
  /\ (forall i, nth_error toolName i = Some UNDERSCORE ->
                nth_error toolName (S i) <> Some UNDERSCORE).
Proof.
  cbv zeta. unfold toolNameOf.
  set (source := match orElse summary [] with
                 | [] => _
                 | _ :: _ => _
                 end).
  set (cleaned := collapseUnderscores
                    (replaceOutside isNameChar UNDERSCORE source)).
  assert (Hchars : Forall (fun c => isNameChar c = true) cleaned)
    by apply collapseUnderscores_Forall, replaceOutside_isNameChar.
  assert (Hruns : hasDoubleUnderscore cleaned = false)
    by apply collapseUnderscores_no_double.
  destruct (64 <? List.length cleaned)%nat eqn:E.
  - unfold substring0. split; [|split].
    + apply firstn_le_length.
    + apply Forall_firstn_keeps, Hchars.
    + apply hasDoubleUnderscore_nth, hasDoubleUnderscore_firstn, Hruns.
  - apply Nat.ltb_ge in E. split; [|split].
    + exact E.
    + exact Hchars.
    + apply hasDoubleUnderscore_nth, Hruns.
Qed.

(** ** Identifiers survive reconstruction *)

Lemma idChar_segment_fixed parts :
  Forall (Forall (fun c => isIdChar c = true)) parts ->
  map (replaceOutside isIdChar HYPHEN) parts = parts.
Proof.
  induction 1 as [|p rest Hp Hrest IH]; [reflexivity|].
  simpl. now rewrite IH, replaceOutside_fixed.
Qed.

Lemma replaceOutside_idChars s :
  Forall (fun c => isIdChar c = true) (replaceOutside isIdChar HYPHEN s).
Proof.
  unfold replaceOutside. apply Forall_map, Forall_forall. intros c _.
  destruct (isIdChar c) eqn:E; [exact E | reflexivity].
Qed.

Lemma upper_or_digit c :
  isIdChar c = true -> isLower c = false -> c <> HYPHEN ->
  isUpper c || isDigit c = true.
Proof.
  unfold isIdChar. intros H Hl Hh. rewrite Hl in H. simpl in H.
  apply N.eqb_neq in Hh. rewrite Hh, orb_false_r in H. exact H.
Qed.

Section RoundTrip.

(** What the round trip uses of [toUpperCase]: its result has no letter
    [a-z], and a string of letters [A-Z] and digits is left as it is. *)
Hypothesis upper_no_lower :
  forall s, Forall (fun c => isLower c = false) (toUpperCase s).
Hypothesis upper_fixed :
  forall s, Forall (fun c => isUpper c || isDigit c = true) s ->
            toUpperCase s = s.

Lemma toolIdOf_rederive method path :
  toolIdOf (methodOf (toolIdOf method path)) (pathOf (toolIdOf method path))
  = toolIdOf method path.
Proof.
  set (san := replaceOutside isIdChar HYPHEN).
  assert (Hid : toolIdOf method path =
                san (toUpperCase method) ++ HYPHEN :: san (stripLeadingSlash path)).
  { unfold toolIdOf, san, replaceOutside. now rewrite map_app. }
  assert (Hsplit : split HYPHEN (toolIdOf method path) =
                   split HYPHEN (san (toUpperCase method))
                   ++ split HYPHEN (san (stripLeadingSlash path)))
    by (rewrite Hid; apply split_app_sep).
  (* the segments *)
  pose proof (split_Forall _ HYPHEN _
                (replaceOutside_idChars
                   (toUpperCase method ++ [HYPHEN] ++ stripLeadingSlash path)))
    as Hchars.
  pose proof (split_no_sep HYPHEN (toolIdOf method path)) as Hnosep.
  fold (toolIdOf method path) in Hchars.
  assert (Hlow : Forall (Forall (fun c => isLower c = false))
                   (split HYPHEN (san (toUpperCase method)))).
  { apply split_Forall. unfold san, replaceOutside.
    apply Forall_map. eapply Forall_impl; [|apply upper_no_lower].
    simpl. intros c Hc. destruct (isIdChar c); [exact Hc | reflexivity]. }
  pose proof (join_split HYPHEN (toolIdOf method path)) as Hjoin.
  unfold methodOf, pathOf. rewrite Hsplit in *.
  pose proof (split_nonempty HYPHEN (san (toUpperCase method))) as HneA.
  pose proof (split_nonempty HYPHEN (san (stripLeadingSlash path))) as HneB.
  destruct (split HYPHEN (san (toUpperCase method))) as [|a0 rest]; [congruence|].
  destruct (split HYPHEN (san (stripLeadingSlash path))) as [|b0 bs] eqn:EB;
    [congruence|].
  simpl hd. simpl tl.
  change ((a0 :: rest) ++ b0 :: bs) with (a0 :: (rest ++ b0 :: bs)) in *.
  inversion Hchars as [|? ? Ha0 Hparts]; subst.
  inversion Hnosep as [|? ? Ha0' Hparts']; subst.
  inversion Hlow as [|? ? Ha0'' _]; subst.
  assert (Hupper : toUpperCase a0 = a0).
  { apply upper_fixed. rewrite Forall_forall in *. intros c Hc.
    apply upper_or_digit; auto. }
  assert (HJ : replaceAll HYPHEN SLASH (join [SLASH] (rest ++ b0 :: bs))
               = join [SLASH] (rest ++ b0 :: bs)).
  { apply replaceAll_absent, join_Forall; [|exact Hparts'].
    repeat constructor. discriminate. }
  unfold toolIdOf. rewrite Hupper, HJ.
  change (stripLeadingSlash ([SLASH] ++ join [SLASH] (rest ++ b0 :: bs)))
    with (join [SLASH] (rest ++ b0 :: bs)).
  fold san. unfold san at 1, replaceOutside at 1.
  rewrite !map_app. fold (replaceOutside isIdChar HYPHEN a0).
  rewrite (replaceOutside_fixed _ _ _ Ha0).
  rewrite map_join.
  change (map (map (fun c => if isIdChar c then c else HYPHEN))
            (rest ++ b0 :: bs))
    with (map (replaceOutside isIdChar HYPHEN) (rest ++ b0 :: bs)).
  rewrite (idChar_segment_fixed _ Hparts).
  change (a0 ++ [HYPHEN] ++ join [HYPHEN] (rest ++ b0 :: bs)
          = toolIdOf method path).
  rewrite <- Hjoin.
  destruct (rest ++ b0 :: bs) as [|q qs] eqn:E.
  - destruct rest; discriminate.
  - rewrite join_cons2. reflexivity.
Qed.

End RoundTrip.

(** C4.  Given what [toUpperCase] guarantees (no letter [a-z] in its
    result; upper-case letters and digits unchanged), for a Tool Identifier
    derived from a path without hyphens, taking the method and the path
    back out of the identifier (the text before the first hyphen; the
    rest with its hyphens turned to slashes) and deriving an identifier
    from them gives the identifier that was started from. *)
Theorem C4_identifier_round_trip
    (upper_no_lower :
       forall s, Forall (fun c => isLower c = false) (toUpperCase s))
    (upper_fixed :
       forall s, Forall (fun c => isUpper c || isDigit c = true) s ->
                 toUpperCase s = s)
    (method path : jsstring)
    (Hpath : ~ In HYPHEN path) :
  let toolId := toolIdOf method path in
  toolIdOf (methodOf toolId) (pathOf toolId) = toolId.
Proof.
  intros toolId. apply toolIdOf_rederive; assumption.
Qed.

(** ** Resolution of a tool call *)

Lemma findByName_none registry name :
  findByName registry name = None <-> Forall (nameDiffers name) registry.
Proof.
  induction registry as [|[tid t] rest IH]; simpl.
  - split; [constructor | reflexivity].
  - destruct (strictEqualsString (tool_name t) name) eqn:E.
    + split; [discriminate|]. intros H. inversion H as [|? ? Hd _]; subst.
      unfold nameDiffers in Hd. simpl in Hd. congruence.
    + rewrite IH. split.
      * intros H. constructor; [exact E | exact H].
      * intros H. now inversion H.
Qed.

Lemma findByName_first registry name tid t :
  findByName registry name = Some (tid, t) ->
  exists before after,
    registry = before ++ (tid, t) :: after
    /\ Forall (nameDiffers name) before
    /\ strictEqualsString (tool_name t) name = true.
Proof.
  induction registry as [|[tid0 t0] rest IH]; simpl; [discriminate|].
  destruct (strictEqualsString (tool_name t0) name) eqn:E.
  - intros [= -> ->]. exists [], rest. repeat split; [constructor | exact E].
  - intros H. destruct (IH H) as (before & after & -> & Hb & Ht).
    exists ((tid0, t0) :: before), after. repeat split; [|exact Ht].
    constructor; [exact E | exact Hb].
Qed.

(** C7 (as amended).  When an identifier is supplied (a truthy [id]) the
    name is not consulted, whatever it is: the identifier is converted to
    its lookup key and the descriptor is the registry's entry under that
    key, or, when the conversion throws, the resolution throws the same
    error and nothing is looked up.  When no identifier but a name is
    supplied, the descriptor is the first entry, in the registry's
    iteration order, whose Tool Name equals the name, and there is none
    when no Tool Name does. *)
Theorem C7_resolution_order (registry : alist Tool) (id name : value) :
  (truthy id = true ->
     resolveTool registry id name
     = match lookupKey id with
       | inr key => inr (alist_get registry key, Some key)
       | inl e => inl e
       end)
  /\ (truthy id = false -> truthy name = true ->
        (exists before tid t after,
            registry = before ++ (tid, t) :: after
            /\ Forall (nameDiffers name) before
            /\ strictEqualsString (tool_name t) name = true
            /\ resolveTool registry id name = inr (Some t, Some tid))
        \/ (Forall (nameDiffers name) registry
            /\ resolveTool registry id name = inr (None, None))).
Proof.
  unfold resolveTool. split.
  - intros ->. reflexivity.
  - intros -> ->. destruct (findByName registry name) as [[tid t]|] eqn:E.
    + left. destruct (findByName_first _ _ _ _ E) as (before & after & H1 & H2 & H3).
      exists before, tid, t, after. auto.
    + right. split; [now apply findByName_none | reflexivity].
Qed.

(** C10 (as amended).  A supplied identifier that is a string is looked up
    with its leading and trailing white space trimmed, so two such
    identifiers that are the same text padded with white space resolve
    alike; a supplied identifier that is not a string is converted with
    [String(id)] and, unless that throws, looked up as converted, without
    trimming. *)
Theorem C10_lookup_trims_strings (registry : alist Tool) (id name : value)
    (Hid : truthy id = true) :
  resolveTool registry id name
  = match id with
    | VStr s => inr (alist_get registry (trim s), Some (trim s))
    | _ =>
        match ToString id with
        | inr key => inr (alist_get registry key, Some key)
        | inl e => inl e
        end
    end
  /\ (forall core s first last name',
        id = VStr s ->
        hd_error core = Some first -> isWhiteSpace first = false ->
        hd_error (rev core) = Some last -> isWhiteSpace last = false ->
        padded core s ->
        resolveTool registry id name
        = resolveTool registry (VStr core) name').
Proof.
  split.
  - unfold resolveTool. rewrite Hid. destruct id; reflexivity.
  - intros core s first last name' -> Hf Hfw Hl Hlw Hpad.
    unfold resolveTool. rewrite Hid.
    assert (Hcore : truthy (VStr core) = true)
      by (destruct core; [discriminate | reflexivity]).
    rewrite Hcore. unfold lookupKey.
    rewrite (trim_padded core s first last) by assumption.
    rewrite (trim_padded core core first last); try assumption; [reflexivity|].
    exists [], []. rewrite app_nil_r. repeat split; constructor.
Qed.

(** ** The ways out of the handler *)

Lemma callTool_resolution_throws request w e :
  resolveTool (tools w) (call_id request) (call_name request) = inl e ->
  exists w',
    callTool request w = (inl e, w')
    /\ config w' = config w /\ tools w' = tools w /\ sent w' = sent w
    /\ stderr w' = stderr w ++ received request.
Proof.
  intros H.
  unfold callTool, bind, console_error, this_tools, liftE, throw, received.
  cbn [tools config stderr sent]. rewrite H.
  eexists; split; [reflexivity|].
  cbn [tools config stderr sent].
  rewrite <- !app_assoc; auto.
Qed.

Lemma callTool_not_found request w resolved :
  resolveTool (tools w) (call_id request) (call_name request)
  = inr resolved ->
  match resolved with
  | (Some _, Some (_ :: _)) => False
  | _ => True
  end ->
  exists w',
    callTool request w = (inl (notFoundError request), w')
    /\ config w' = config w /\ tools w' = tools w /\ sent w' = sent w
    /\ stderr w' = stderr w ++ received request
                   ++ [[LogStr (availableTools (tools w))]].
Proof.
  intros Hres H.
  unfold callTool, bind, console_error, this_tools, liftE, throw, ret,
    received, notFoundError.
  cbn [tools config stderr sent]. rewrite Hres.
  destruct resolved as [[tool|] [[|c toolId]|]]; try contradiction;
    cbn [tools config stderr sent];
    destruct (ToString (if truthy (call_id request) then call_id request
                        else call_name request));
    (eexists; split; [reflexivity|]);
    cbn [tools config stderr sent];
    rewrite <- !app_assoc; auto.
Qed.

Lemma callTool_inr request w cfg w' :
  callTool request w = (inr cfg, w') ->
  exists tool toolId url,
    resolveTool (tools w) (call_id request) (call_name request)
    = inr (Some tool, Some toolId)
    /\ URL_toString (cleanPathOf (pathOf toolId))
         (baseUrlOf (apiBaseUrl (config w))) = Some url
    /\ shapeArguments (methodOf toolId) url (headers (config w))
         (call_arguments request) = inr cfg
    /\ tools w' = tools w /\ config w' = config w
    /\ sent w' = sent w ++ [cfg].
Proof.
  unfold callTool, bind, console_error, this_tools, this_config, axios,
    liftE, throw, ret.
  cbn [tools config stderr sent].
  destruct (resolveTool (tools w) (call_id request) (call_name request))
    as [e|[[tool|] [[|c toolId]|]]];
    cbn [tools config stderr sent];
    try discriminate;
    try (destruct (ToString (if truthy (call_id request)
                             then call_id request else call_name request));
         discriminate).
  destruct (URL_toString (cleanPathOf (pathOf (c :: toolId)))
              (baseUrlOf (apiBaseUrl (config w)))) as [url|] eqn:E;
    [|discriminate].
  destruct (shapeArguments (methodOf (c :: toolId)) url (headers (config w))
              (call_arguments request)) as [e|shaped] eqn:Hshape;
    [discriminate|].
  intros [= <- <-]. exists tool, (c :: toolId), url.
  cbn [tools config stderr sent]. auto 10.
Qed.



(** ** Query parameters *)

Lemma object_set_same {V} (o : alist V) k v :
  k <> js "__proto__" -> alist_get (object_set o k v) k = Some v.
Proof.
  intros H. unfold object_set. apply str_eqb_neq in H. rewrite H.
  apply alist_get_set_same.
Qed.

Lemma object_set_other {V} (o : alist V) k v k' :
  k <> k' -> alist_get (object_set o k v) k' = alist_get o k'.
Proof.
  intros H. unfold object_set.
  destruct (str_eqb k (js "__proto__")); [reflexivity|].
  now apply alist_get_set_other.
Qed.

Lemma object_set_proto {V} (o : alist V) v :
  object_set o (js "__proto__") v = o.
Proof. reflexivity. Qed.

Lemma queryStep_serialized q key v :
  queryStep q (key, v)
  = match serialized v with
    | inl e => inl e
    | inr (Some s) => inr (object_set q key s)
    | inr None => inr q
    end.
Proof.
  unfold queryStep, serialized. cbn [fst snd].
  destruct v as [ | |b|n|s|elems|fields]; try reflexivity.
  - destruct (ToString (VBool b)); reflexivity.
  - destruct (Array_join [COMMA] elems); reflexivity.
  - destruct (ToString (VObj fields)); reflexivity.
Qed.






(** The value of a query parameter, spelled out on the kinds of value. *)
Lemma serialized_value v r :
  serialized v = inr r ->
  match v with
  | VArr elems =>
      exists s, Array_join [COMMA] elems = inr s /\ r = Some s
  | VUndefined | VNull => r = None
  | _ => exists s, ToString v = inr s /\ r = Some s
  end.
Proof.
  unfold serialized. destruct v as [ | |b|n|s|elems|fields].
  - now intros [= <-].
  - now intros [= <-].
  - destruct (ToString (VBool b)); [discriminate|].
    intros [= <-]. eexists; split; reflexivity.
  - destruct (ToString (VNum n)); [discriminate|].
    intros [= <-]. eexists; split; reflexivity.
  - destruct (ToString (VStr s)); [discriminate|].
    intros [= <-]. eexists; split; reflexivity.
  - destruct (Array_join [COMMA] elems); [discriminate|].
    intros [= <-]. eexists; split; reflexivity.
  - destruct (ToString (VObj fields)); [discriminate|].
    intros [= <-]. eexists; split; reflexivity.
Qed.


(** C3 (as amended).  Take an identifier that is not the Tool Name of any
    registered descriptor, supplied as the [id] or, without an [id], as
    the [name].  When its lookup key (the string trimmed of surrounding
    white space; [String(id)] for a value that is not a string) has no
    entry in the registry, the dispatch fails with the error
    [Tool not found]; when the conversion to a string throws, the
    dispatch fails with that [TypeError].  Either way nothing is handed
    to [axios], and the registry and the configuration are left as they
    were. *)
Theorem C3_unknown_identifier
    (request : CallToolParams) (w : World) (x : value)
    (Hname : Forall (nameDiffers x) (tools w))
    (Hsupplied : (truthy x = true /\ call_id request = x)
                 \/ (truthy (call_id request) = false
                     /\ call_name request = x)) :
  match lookupKey x with
  | inr key =>
      alist_get (tools w) key = None ->
      exists asked w',
        ToString x = inr asked
        /\ callTool request w
           = (inl (Error (js "Tool not found: " ++ asked)), w')
        /\ sent w' = sent w /\ tools w' = tools w /\ config w' = config w
  | inl e =>
      exists w',
        callTool request w = (inl e, w')
        /\ sent w' = sent w /\ tools w' = tools w /\ config w' = config w
  end.
Proof.
  assert (Hasked : (if truthy (call_id request) then call_id request
                    else call_name request) = x).
  { destruct Hsupplied as [[Hx ->]|[Hid ->]]; [now rewrite Hx | now rewrite Hid]. }
  assert (Hconv : lookupKey x = ToString x \/ exists s, x = VStr s).
  { destruct x; try (now left). right. eexists; reflexivity. }
  apply findByName_none in Hname.
  destruct (lookupKey x) as [e|key] eqn:Hkey.
  - (* the conversion throws *)
    destruct Hconv as [Hconv|[s ->]]; [|discriminate].
    destruct Hsupplied as [[Hx Hid]|[Hid Hn]].
    + destruct (callTool_resolution_throws request w e)
        as (w' & Hrun & Hc & Ht & Hs & _).
      { unfold resolveTool. now rewrite Hid, Hx, Hkey. }
      exists w'. auto.
    + destruct (callTool_not_found request w (None, None))
        as (w' & Hrun & Hc & Ht & Hs & _).
      { unfold resolveTool. rewrite Hid, Hn, Hname.
        now destruct (truthy x). }
      { exact I. }
      exists w'. unfold notFoundError in Hrun.
      rewrite Hasked, <- Hconv in Hrun. auto.
  - intros Hmiss.
    assert (Hstr : exists asked, ToString x = inr asked).
    { destruct Hconv as [Hconv|[s ->]]; [|eexists; reflexivity].
      rewrite <- Hconv. eexists; reflexivity. }
    destruct Hstr as [asked Hstr]. exists asked.
    destruct (callTool_not_found request w
                (if truthy (call_id request) then (None, Some key)
                 else (None, None)))
      as (w' & Hrun & Hc & Ht & Hs & _).
    { unfold resolveTool. destruct Hsupplied as [[Hx ->]|[Hid ->]].
      - now rewrite Hx, Hkey, Hmiss.
      - rewrite Hid, Hname. now destruct (truthy x). }
    { now destruct (truthy (call_id request)). }
    exists w'. unfold notFoundError in Hrun.
    rewrite Hasked, Hstr in Hrun. auto.
Qed.

(** C9 (as amended).  When neither the identifier nor the name resolves to
    a descriptor, the registered (identifier, name) pairs, each as
    [identifier (name)], are written to the diagnostic log in one
    [Available tools:] line, and the error returned to the caller is
    [Tool not found:] followed by the identifier or name that was asked
    for, and nothing else (or, when a name that was asked for cannot be
    converted to a string, the [TypeError] of that conversion). *)
Theorem C9_not_found_diagnostics
    (request : CallToolParams) (w : World) (key : option jsstring)
    (Hunresolved :
       resolveTool (tools w) (call_id request) (call_name request)
       = inr (None, key)) :
  exists w',
    callTool request w
    = (match ToString (if truthy (call_id request)
                       then call_id request
                       else call_name request) with
       | inr asked => inl (Error (js "Tool not found: " ++ asked))
       | inl e => inl e
       end, w')
    /\ stderr w' = stderr w ++ received request
                   ++ [[LogStr (availableTools (tools w))]]
    /\ (forall toolId tool, In (toolId, tool) (tools w) ->
          includes (toolId ++ js " (" ++ tool_name tool ++ js ")")
            (availableTools (tools w)) = true).
Proof.
  destruct (callTool_not_found request w _ Hunresolved I)
    as (w' & Hrun & _ & _ & _ & Herr).
  exists w'. split; [|split; [exact Herr|]].
  - rewrite Hrun. unfold notFoundError.
    now destruct (ToString (if truthy (call_id request)
                            then call_id request else call_name request)).
  - intros toolId tool Hin. unfold availableTools.
    apply includes_join, in_map_iff.
    exists (toolId, tool). split; [reflexivity | exact Hin].
Qed.

(** ** The request URL *)



Lemma pathOf_cleanPath toolId : pathOf toolId = SLASH :: cleanPathOf (pathOf toolId).
Proof. reflexivity. Qed.


Lemma shapeArguments_fields method url hdrs params cfg :
  shapeArguments method url hdrs params = inr cfg ->
  ax_method cfg = toLowerCase method /\ ax_url cfg = url
  /\ ax_headers cfg = hdrs.
Proof.
  unfold shapeArguments.
  destruct (str_eqb (toLowerCase method) (js "get")).
  - destruct params as [args|].
    + destruct (queryParamsOf args); [discriminate|].
      intros [= <-]. auto.
    + intros [= <-]. auto.
  - intros [= <-]. auto.
Qed.


(** ** Parameters *)

(** C6 (as amended).  When the input schema is built, an entry of
    [parameters] that lacks a [name] key or an [in] key is skipped; an
    entry that has both (and a schema object) sets the property of that
    name, with the schema's type, or [string] when the schema has none (or
    an empty one), and the entry's description, or [{name} parameter]
    when it has none (or an empty one); the other properties stay.  The
    one name for which no property is set is [__proto__]: assigning to it
    leaves the properties as they were. *)
Theorem C6_parameter_entries
    (schema : ToolInputSchema) (param : ParameterEntry) :
  (param_name param = None \/ param_in param = None ->
     addParameter schema param = inr schema)
  /\ (forall name location paramSchema,
        param_name param = Some name ->
        param_in param = Some location ->
        param_schema param = Some paramSchema ->
        exists schema',
          addParameter schema param = inr schema'
          /\ (name <> js "__proto__" ->
              alist_get (properties schema') name
              = Some {| prop_type :=
                          match schema_type paramSchema with
                          | Some (c :: t) => c :: t
                          | Some [] | None => js "string"
                          end;
                        prop_description :=
                          match param_description param with
                          | Some (c :: d) => c :: d
                          | Some [] | None => name ++ js " parameter"
                          end |})
          /\ (name = js "__proto__" ->
              properties schema' = properties schema)
          /\ (forall other, other <> name ->
                alist_get (properties schema') other
                = alist_get (properties schema) other)).
Proof.
  unfold addParameter. split.
  - intros [-> | ->]; [reflexivity|].
    destruct (param_name param); reflexivity.
  - intros name location paramSchema -> -> ->.
    eexists. split; [reflexivity|]. cbn [properties]. split; [|split].
    + intros Hname. rewrite object_set_same by exact Hname. reflexivity.
    + intros ->. reflexivity.
    + intros other Hne. apply object_set_other. congruence.
Qed.

(** ** The keys of a compiled registry *)

Lemma alist_set_keys {V} (P : jsstring -> Prop) (m : alist V) k v :
  Forall P (alist_keys m) -> P k -> Forall P (alist_keys (alist_set m k v)).
Proof.
  intros Hm Hk. induction m as [|[k' v'] m IH]; simpl.
  - repeat constructor. exact Hk.
  - inversion Hm as [|? ? Hk' Hm']; subst.
    destruct (str_eqb k' k); simpl; constructor; auto.
Qed.

Lemma alist_get_key {V} (m : alist V) k v :
  alist_get m k = Some v -> In k (alist_keys m).
Proof.
  induction m as [|[k' v'] m IH]; simpl; [discriminate|].
  destruct (str_eqb k' k) eqn:E; [|auto].
  apply str_eqb_eq in E. auto.
Qed.

Lemma findByName_key registry name tid t :
  findByName registry name = Some (tid, t) -> In tid (alist_keys registry).
Proof.
  intros H. destruct (findByName_first _ _ _ _ H) as (b & a & -> & _).
  unfold alist_keys. rewrite map_app. apply in_or_app. right. now left.
Qed.

Lemma resolveTool_key registry id name tool toolId :
  resolveTool registry id name = inr (Some tool, Some toolId) ->
  In toolId (alist_keys registry).
Proof.
  unfold resolveTool. destruct (truthy id).
  - destruct (lookupKey id); [discriminate|].
    intros [= H <-]. eapply alist_get_key, H.
  - destruct (truthy name); [|discriminate].
    destruct (findByName registry name) as [[tid t]|] eqn:E; [|discriminate].
    intros [= _ <-]. eapply findByName_key, E.
Qed.

Lemma registerOperation_idKeys path method op w r w' :
  idKeys w -> registerOperation path method op w = (r, w') -> idKeys w'.
Proof.
  unfold registerOperation, bind, console_error, tools_set, liftE, idKeys.
  intros Hw.
  destruct (match op_parameters op with
            | Some params => addParameters emptyInputSchema params
            | None => inr emptyInputSchema
            end) as [e|schema]; simpl.
  - unfold throw. intros [= _ <-]. exact Hw.
  - unfold ret. intros [= _ <-]. simpl.
    apply alist_set_keys; [exact Hw | apply replaceOutside_idChars].
Qed.

Lemma forOf_invariant {A} (P : World -> Prop) (body : A -> M unit) :
  (forall x w r w', P w -> body x w = (r, w') -> P w') ->
  forall xs w r w', P w -> forOf xs body w = (r, w') -> P w'.
Proof.
  intros Hbody xs. induction xs as [|x xs IH]; simpl; intros w r w' Hw H.
  - unfold ret in H. injection H as _ <-. exact Hw.
  - unfold bind in H. destruct (body x w) as [[e|[]] w1] eqn:E.
    + injection H as _ <-. eapply Hbody; eauto.
    + eapply IH; [|exact H]. eapply Hbody; eauto.
Qed.

(** Whether it completes or throws, the compiler leaves a registry whose
    keys consist of [[A-Za-z0-9-]] when it started from one. *)
Lemma parseOpenAPISpec_idKeys spec w r w' :
  idKeys w -> parseOpenAPISpec spec w = (r, w') -> idKeys w'.
Proof.
  unfold parseOpenAPISpec. apply forOf_invariant.
  intros [path [item|]] w0 r0 w0' Hw0; simpl.
  - unfold parsePathItem. revert w0 r0 w0' Hw0. apply forOf_invariant.
    intros [method [op|]] w1 r1 w1' Hw1; simpl.
    + destruct (str_eqb method (js "parameters")).
      * unfold ret. now intros [= _ <-].
      * apply registerOperation_idKeys, Hw1.
    + unfold ret. now intros [= _ <-].
  - unfold ret. now intros [= _ <-].
Qed.

End Proofs.

(** * More of the server *)

Section MoreProofs.
Context {R : Runtime}.
Variable JSON_stringify : value -> option jsstring.
Variable JSON_stringify_pretty : value -> option jsstring.

(** ** The compiler as a run of [Map.set] *)

Lemma bind_ret_unit (m : M unit) (w : World) :
  bind m (fun _ => ret tt) w = m w.
Proof.
  unfold bind, ret. destruct (m w) as [[e|[]] w']; reflexivity.
Qed.

Lemma forOf_ext {A} (body1 body2 : A -> M unit) xs w :
  (forall x w0, body1 x w0 = body2 x w0) ->
  forOf xs body1 w = forOf xs body2 w.
Proof.
  intros H. revert w. induction xs as [|x xs IH]; intros w; [reflexivity|].
  simpl. unfold bind. rewrite H.
  destruct (body2 x w) as [[e|u] w']; [reflexivity | apply IH].
Qed.

Lemma bind_assoc {A B C} (m : M A) (k : A -> M B) (k' : B -> M C) w :
  bind (bind m k) k' w = bind m (fun a => bind (k a) k') w.
Proof. unfold bind. destruct (m w) as [[e|a] w']; reflexivity. Qed.

Lemma bind_ext {A B} (m : M A) (k k' : A -> M B) w :
  (forall a w0, k a w0 = k' a w0) -> bind m k w = bind m k' w.
Proof.
  intros H. unfold bind. destruct (m w) as [[e|a] w']; [reflexivity | apply H].
Qed.

Lemma forOf_app {A} (body : A -> M unit) xs ys w :
  forOf (xs ++ ys) body w
  = bind (forOf xs body) (fun _ => forOf ys body) w.
Proof.
  revert w. induction xs as [|x xs IH]; intros w; [reflexivity|].
  simpl. rewrite bind_assoc. apply bind_ext. intros _ w0. apply IH.
Qed.

Lemma forOf_flat_map {A B} (f : A -> list B) (body : B -> M unit) xs w :
  forOf xs (fun x => forOf (f x) body) w = forOf (flat_map f xs) body w.
Proof.
  revert w. induction xs as [|x xs IH]; intros w; [reflexivity|].
  simpl. rewrite forOf_app. apply bind_ext. intros _ w0. apply IH.
Qed.

Lemma forOf_cons {A} (body : A -> M unit) x xs w :
  forOf (x :: xs) body w = bind (body x) (fun _ => forOf xs body) w.
Proof. reflexivity. Qed.

Lemma parsePathItem_triples path pathItem w :
  parsePathItem path pathItem w
  = forOf (operationsOfItem path pathItem) registerTriple w.
Proof.
  unfold parsePathItem, operationsOfItem.
  rewrite <- forOf_flat_map. apply forOf_ext.
  intros [method [op|]] w0; simpl; [|reflexivity].
  destruct (str_eqb method (js "parameters")); simpl; [reflexivity|].
  now rewrite bind_ret_unit.
Qed.

Lemma parseOpenAPISpec_triples spec w :
  parseOpenAPISpec spec w = forOf (operationsOf spec) registerTriple w.
Proof.
  unfold parseOpenAPISpec, operationsOf.
  rewrite <- forOf_flat_map. apply forOf_ext.
  intros [path [pathItem|]] w0; simpl; [|reflexivity].
  apply parsePathItem_triples.
Qed.

Lemma registerTriple_run triple w :
  registerTriple triple w
  = let logged := {| config := config w; tools := tools w;
                     stderr := stderr w ++ [registeringLineOf triple];
                     sent := sent w |} in
    match descriptorOf triple with
    | inl e => (inl e, logged)
    | inr entry =>
        (inr tt, {| config := config w;
                    tools := alist_set (tools w) (fst entry) (snd entry);
                    stderr := stderr w ++ [registeringLineOf triple];
                    sent := sent w |})
    end.
Proof.
  destruct triple as [[path method] op].
  unfold registerTriple, registerOperation, descriptorOf, inputSchemaOf,
    bind, console_error, tools_set, liftE, throw, ret.
  cbn [fst snd config tools stderr sent registeringLineOf].
  destruct (match op_parameters op with
            | Some params => addParameters emptyInputSchema params
            | None => inr emptyInputSchema
            end) as [e|schema]; reflexivity.
Qed.

Lemma forOf_register_ok ops entries w :
  descriptorsOf ops = inr entries ->
  forOf ops registerTriple w
  = (inr tt, {| config := config w; tools := setAll entries (tools w);
                stderr := stderr w ++ map registeringLineOf ops;
                sent := sent w |}).
Proof.
  revert entries w. induction ops as [|t ops IH]; intros entries w H.
  - injection H as <-. simpl. rewrite app_nil_r. destruct w; reflexivity.
  - simpl in H. destruct (descriptorOf t) as [e|entry] eqn:Ed; [discriminate|].
    destruct (descriptorsOf ops) as [e|rest] eqn:Er; [discriminate|].
    injection H as <-.
    rewrite forOf_cons. unfold bind. rewrite registerTriple_run, Ed.
    cbv beta iota zeta.
    rewrite (IH rest _ eq_refl). cbn [config tools stderr sent].
    rewrite <- app_assoc. reflexivity.
Qed.

Lemma forOf_register_fail ops e w :
  descriptorsOf ops = inl e ->
  exists before t after entries,
    ops = before ++ t :: after
    /\ descriptorsOf before = inr entries
    /\ descriptorOf t = inl e
    /\ forOf ops registerTriple w
       = (inl e, {| config := config w; tools := setAll entries (tools w);
                    stderr := stderr w
                              ++ map registeringLineOf (before ++ [t]);
                    sent := sent w |}).
Proof.
  revert w. induction ops as [|t ops IH]; intros w H; [discriminate|].
  simpl in H. destruct (descriptorOf t) as [e0|entry] eqn:Ed.
  - injection H as ->. exists [], t, ops, []. repeat split; try assumption.
    rewrite forOf_cons. unfold bind. rewrite registerTriple_run, Ed.
    reflexivity.
  - destruct (descriptorsOf ops) as [e0|rest] eqn:Er; [|discriminate].
    injection H as ->.
    rewrite forOf_cons. unfold bind. rewrite registerTriple_run, Ed.
    cbv beta iota zeta.
    match goal with
    | |- context [forOf ops registerTriple ?w0] =>
        destruct (IH w0 eq_refl)
          as (before & t' & after & entries & -> & Hb & Ht & Hrun)
    end.
    exists (t :: before), t', after, (entry :: entries).
    split; [reflexivity|]. split; [simpl; now rewrite Ed, Hb|].
    split; [exact Ht|]. rewrite Hrun. cbn [config tools stderr sent].
    rewrite <- app_assoc. reflexivity.
Qed.

Lemma parseOpenAPISpec_run
    (spec : Document) (w : World) (entries : list (jsstring * Tool))
    (Hok : descriptorsOf (operationsOf spec) = inr entries) :
  parseOpenAPISpec spec w
  = (inr tt, {| config := config w;
                tools := setAll entries (tools w);
                stderr := stderr w
                          ++ map registeringLineOf (operationsOf spec);
                sent := sent w |}).
Proof. rewrite parseOpenAPISpec_triples. now apply forOf_register_ok. Qed.

(** X1.  When the parameter loop throws for none of the operations the
    compiler reaches, [parseOpenAPISpec] completes; the registry it leaves
    is the one [Map.set] builds when called once per operation, in document
    order, with the operation's identifier and descriptor; one
    [Registering tool] line is logged per operation; the configuration
    and the requests sent are as before. *)
Theorem X1_compile_is_set_in_document_order
    (spec : Document) (w : World) (entries : list (jsstring * Tool))
    (Hok : descriptorsOf (operationsOf spec) = inr entries) :
  parseOpenAPISpec spec w
  = (inr tt, {| config := config w;
                tools := setAll entries (tools w);
                stderr := stderr w
                          ++ map registeringLineOf (operationsOf spec);
                sent := sent w |}).
Proof. now apply parseOpenAPISpec_run. Qed.

Lemma parseOpenAPISpec_throws
    (spec : Document) (w : World) (e : JsError)
    (Hfail : descriptorsOf (operationsOf spec) = inl e) :
  exists before t after entries,
    operationsOf spec = before ++ t :: after
    /\ descriptorsOf before = inr entries
    /\ descriptorOf t = inl e
    /\ parseOpenAPISpec spec w
       = (inl e, {| config := config w;
                    tools := setAll entries (tools w);
                    stderr := stderr w
                              ++ map registeringLineOf (before ++ [t]);
                    sent := sent w |}).
Proof.
  destruct (forOf_register_fail _ _ w Hfail)
    as (before & t & after & entries & H1 & H2 & H3 & H4).
  exists before, t, after, entries. rewrite parseOpenAPISpec_triples. auto.
Qed.

(** X2.  When the parameter loop throws for some operation, the compiler
    throws that error at the first such operation: the operations before
    it are registered, it and the ones after it are not, and the log ends
    with its [Registering tool] line. *)
Theorem X2_compile_stops_at_first_throw
    (spec : Document) (w : World) (e : JsError)
    (Hfail : descriptorsOf (operationsOf spec) = inl e) :
  exists before t after entries,
    operationsOf spec = before ++ t :: after
    /\ descriptorsOf before = inr entries
    /\ descriptorOf t = inl e
    /\ parseOpenAPISpec spec w
       = (inl e, {| config := config w;
                    tools := setAll entries (tools w);
                    stderr := stderr w
                              ++ map registeringLineOf (before ++ [t]);
                    sent := sent w |}).
Proof. now apply parseOpenAPISpec_throws. Qed.

(** ** Runs of [Map.set] *)

Lemma setAll_cons {V} (entry : jsstring * V) entries (m : alist V) :
  setAll (entry :: entries) m
  = setAll entries (alist_set m (fst entry) (snd entry)).
Proof. reflexivity. Qed.

Lemma setAll_app {V} (es1 es2 : list (jsstring * V)) (m : alist V) :
  setAll (es1 ++ es2) m = setAll es2 (setAll es1 m).
Proof. unfold setAll. apply fold_left_app. Qed.

Lemma alist_get_set {V} (m : alist V) k v k' :
  alist_get (alist_set m k v) k'
  = if str_eqb k k' then Some v else alist_get m k'.
Proof.
  destruct (str_eqb k k') eqn:E.
  - apply str_eqb_eq in E. subst. apply alist_get_set_same.
  - apply str_eqb_neq in E. now apply alist_get_set_other.
Qed.

Lemma lastWrite_from {V} (entries : list (jsstring * V)) k (acc : option V) :
  fold_left (fun last entry =>
               if str_eqb (fst entry) k then Some (snd entry) else last)
    entries acc
  = match lastWrite entries k with
    | Some v => Some v
    | None => acc
    end.
Proof.
  unfold lastWrite. revert acc.
  induction entries as [|[k0 v0] entries IH]; intros acc; [reflexivity|].
  simpl. rewrite (IH (if str_eqb k0 k then Some v0 else acc)).
  rewrite (IH (if str_eqb k0 k then Some v0 else None)).
  destruct (fold_left _ entries None); [reflexivity|].
  destruct (str_eqb k0 k); reflexivity.
Qed.

Lemma setAll_get {V} (entries : list (jsstring * V)) (m : alist V) k :
  alist_get (setAll entries m) k
  = match lastWrite entries k with
    | Some v => Some v
    | None => alist_get m k
    end.
Proof.
  rewrite <- lastWrite_from. revert m.
  induction entries as [|[k0 v0] entries IH]; intros m; [reflexivity|].
  rewrite setAll_cons, IH. simpl. now rewrite alist_get_set.
Qed.

Lemma lastWrite_app {V} (es1 es2 : list (jsstring * V)) k :
  lastWrite (es1 ++ es2) k
  = match lastWrite es2 k with
    | Some v => Some v
    | None => lastWrite es1 k
    end.
Proof.
  unfold lastWrite at 1. rewrite fold_left_app.
  fold (lastWrite es1 k). apply lastWrite_from.
Qed.

Lemma lastWrite_none {V} (entries : list (jsstring * V)) k :
  lastWrite entries k = None <-> ~ In k (alist_keys entries).
Proof.
  induction entries as [|[k0 v0] entries IH] using rev_ind.
  - split; [intros _ [] | reflexivity].
  - rewrite lastWrite_app. unfold alist_keys. rewrite map_app, in_app_iff.
    unfold lastWrite at 1. simpl. destruct (str_eqb k0 k) eqn:E.
    + apply str_eqb_eq in E. split; [discriminate | intros H; exfalso; auto].
    + apply str_eqb_neq in E. rewrite IH. unfold alist_keys. simpl. tauto.
Qed.

Lemma lastWrite_in {V} (entries : list (jsstring * V)) k v :
  lastWrite entries k = Some v -> In (k, v) entries.
Proof.
  induction entries as [|[k0 v0] entries IH] using rev_ind; [discriminate|].
  rewrite lastWrite_app, in_app_iff. unfold lastWrite at 1. simpl.
  destruct (str_eqb k0 k) eqn:E.
  - apply str_eqb_eq in E. intros [= ->]. subst. right. now left.
  - intros H. left. auto.
Qed.

(** ** The parameter loop *)

Lemma addParameter_run schema param :
  addParameter schema param
  = match param_name param, param_in param with
    | Some name, Some _ =>
        match param_schema param with
        | None => inl missingSchemaError
        | Some paramSchema =>
            inr {| schema_kind := schema_kind schema;
                   properties :=
                     object_set (properties schema) name
                       (propertyOf name param paramSchema);
                   required :=
                     if param_required param then
                       Some (match required schema with
                             | None => []
                             | Some names => names
                             end ++ [name])
                     else required schema |}
        end
    | _, _ => inr schema
    end.
Proof. reflexivity. Qed.

Lemma declaredProperties_cons p params :
  declaredProperties (p :: params)
  = match param_name p, param_in p, param_schema p with
    | Some name, Some _, Some paramSchema =>
        if str_eqb name (js "__proto__") then []
        else [(name, propertyOf name p paramSchema)]
    | _, _, _ => []
    end ++ declaredProperties params.
Proof. reflexivity. Qed.

Lemma requiredNames_cons p params :
  requiredNames (p :: params)
  = (if entryDeclared p && param_required p then [entryName p] else [])
    ++ requiredNames params.
Proof. reflexivity. Qed.

Lemma pushed_pushed old names more :
  pushed (pushed old names) more = pushed old (names ++ more).
Proof.
  destruct names as [|n names]; [reflexivity|].
  destruct more as [|m more]; [now rewrite app_nil_r|].
  simpl. now rewrite <- app_assoc.
Qed.

Lemma addParameters_complete params schema :
  forallb entryComplete params = true ->
  addParameters schema params
  = inr {| schema_kind := schema_kind schema;
           properties := setAll (declaredProperties params) (properties schema);
           required := pushed (required schema) (requiredNames params) |}.
Proof.
  revert schema. induction params as [|p params IH]; intros schema H.
  - destruct schema; reflexivity.
  - simpl in H. apply andb_true_iff in H. destruct H as [Hp Hrest].
    simpl addParameters. rewrite addParameter_run.
    rewrite declaredProperties_cons, requiredNames_cons.
    unfold entryComplete in Hp. unfold entryDeclared, entryName.
    destruct (param_name p) as [name|]; [|exact (IH schema Hrest)].
    destruct (param_in p) as [loc|]; [|exact (IH schema Hrest)].
    destruct (param_schema p) as [paramSchema|]; [|discriminate].
    rewrite (IH _ Hrest). cbn [schema_kind properties required andb].
    rewrite <- pushed_pushed. unfold object_set.
    destruct (str_eqb name (js "__proto__"));
      destruct (param_required p); reflexivity.
Qed.

Lemma addParameters_incomplete params schema :
  forallb entryComplete params = false ->
  addParameters schema params = inl missingSchemaError.
Proof.
  revert schema. induction params as [|p params IH]; intros schema H;
    [discriminate|].
  simpl in H. simpl addParameters. rewrite addParameter_run.
  unfold entryComplete in H.
  destruct (param_name p) as [name|]; [|apply IH, H].
  destruct (param_in p) as [loc|]; [|apply IH, H].
  destruct (param_schema p) as [paramSchema|]; [|reflexivity].
  apply IH, H.
Qed.

Lemma inputSchemaOf_run op :
  inputSchemaOf op
  = if operationComplete op then
      inr {| schema_kind := js "object";
             properties :=
               setAll (declaredProperties
                         (match op_parameters op with
                          | Some params => params
                          | None => []
                          end)) [];
             required :=
               pushed None
                 (requiredNames (match op_parameters op with
                                 | Some params => params
                                 | None => []
                                 end)) |}
    else inl missingSchemaError.
Proof.
  unfold inputSchemaOf, operationComplete.
  destruct (op_parameters op) as [params|]; [|reflexivity].
  destruct (forallb entryComplete params) eqn:E.
  - now rewrite addParameters_complete.
  - now apply addParameters_incomplete.
Qed.

Lemma descriptorsOf_run ops :
  match descriptorsOf ops with
  | inr _ => forallb (fun t => operationComplete (snd t)) ops = true
  | inl e => forallb (fun t => operationComplete (snd t)) ops = false
             /\ e = missingSchemaError
  end.
Proof.
  induction ops as [|[[path method] op] ops IH]; [reflexivity|].
  simpl. rewrite inputSchemaOf_run.
  destruct (operationComplete op); simpl; [|auto].
  destruct (descriptorsOf ops); exact IH.
Qed.

(** X3.  [parseOpenAPISpec] completes exactly when every parameter entry
    of every operation it reaches either is skipped (it lacks [name] or
    [in]) or has a schema object; otherwise it throws the [TypeError] of
    reading [type] of [undefined]. *)
Theorem X3_compile_completes_iff_schemas_present
    (spec : Document) (w : World) :
  fst (parseOpenAPISpec spec w)
  = if forallb (fun t => operationComplete (snd t)) (operationsOf spec)
    then inr tt
    else inl missingSchemaError.
Proof.
  pose proof (descriptorsOf_run (operationsOf spec)) as H.
  destruct (descriptorsOf (operationsOf spec)) as [e|entries] eqn:E.
  - destruct H as [-> ->].
    destruct (parseOpenAPISpec_throws spec w _ E)
      as (b & t & a & es & _ & _ & _ & ->). reflexivity.
  - rewrite H, (parseOpenAPISpec_run spec w _ E). reflexivity.
Qed.

(** ** What a registered descriptor holds *)

Lemma parseOpenAPISpec_completed spec w w' :
  parseOpenAPISpec spec w = (inr tt, w') ->
  exists entries,
    descriptorsOf (operationsOf spec) = inr entries
    /\ w' = {| config := config w; tools := setAll entries (tools w);
               stderr := stderr w
                         ++ map registeringLineOf (operationsOf spec);
               sent := sent w |}.
Proof.
  intros H. destruct (descriptorsOf (operationsOf spec)) as [e|entries] eqn:E.
  - destruct (parseOpenAPISpec_throws spec w _ E)
      as (b & t & a & es & _ & _ & _ & Hrun). congruence.
  - exists entries. split; [reflexivity|].
    rewrite (parseOpenAPISpec_run spec w _ E) in H.
    now injection H.
Qed.

Lemma registerOperation_completed path method op w w' :
  registerOperation path method op w = (inr tt, w') ->
  exists schema,
    inputSchemaOf op = inr schema
    /\ operationComplete op = true
    /\ tools w'
       = alist_set (tools w) (toolIdOf method path)
           {| tool_name := toolNameOf (op_summary op) method path;
              tool_description :=
                toolDescriptionOf (op_description op) method path;
              inputSchema := schema |}.
Proof.
  intros H. change (registerTriple (path, method, op) w = (inr tt, w')) in H.
  rewrite registerTriple_run in H. cbv zeta in H. unfold descriptorOf in H.
  pose proof (inputSchemaOf_run op) as Hs.
  destruct (inputSchemaOf op) as [e|schema]; [discriminate|].
  exists schema. split; [reflexivity|]. split.
  - destruct (operationComplete op); [reflexivity | discriminate].
  - injection H as <-. reflexivity.
Qed.

(** X4.  The descriptor registered for an operation has an input schema of
    type [object] whose [required] array holds the names of the entries
    that have [name] and [in] and are marked required, in the order of the
    entries and with repetitions; the array is absent when there is no
    such entry. *)
Theorem X4_required_lists_required_entries
    (path method : jsstring) (op : OperationObject) (w w' : World)
    (Hrun : registerOperation path method op w = (inr tt, w')) :
  exists tool,
    alist_get (tools w') (toolIdOf method path) = Some tool
    /\ schema_kind (inputSchema tool) = js "object"
    /\ required (inputSchema tool)
       = match requiredNames (parametersOf op) with
         | [] => None
         | name :: names => Some (name :: names)
         end.
Proof.
  destruct (registerOperation_completed _ _ _ _ _ Hrun)
    as (schema & Hs & Hc & ->).
  eexists. split; [apply alist_get_set_same|]. cbn [inputSchema].
  rewrite inputSchemaOf_run, Hc in Hs. injection Hs as <-.
  cbn [schema_kind required]. split; [reflexivity|].
  unfold parametersOf.
  destruct (requiredNames _); reflexivity.
Qed.

Lemma declaredProperties_app ps qs :
  declaredProperties (ps ++ qs) = declaredProperties ps ++ declaredProperties qs.
Proof. unfold declaredProperties. apply flat_map_app. Qed.

Lemma declaredProperties_keys params name :
  In name (alist_keys (declaredProperties params)) ->
  exists param, In param params /\ declares name param.
Proof.
  induction params as [|p params IH].
  - intros [].
  - rewrite declaredProperties_cons. unfold alist_keys.
    rewrite map_app, in_app_iff. intros [H|H].
    + exists p. split; [now left|]. unfold declares, entryDeclared, entryName.
      destruct (param_name p) as [n|]; [|destruct H].
      destruct (param_in p); [|destruct H].
      destruct (param_schema p); [|destruct H].
      destruct (str_eqb n (js "__proto__")); [destruct H|].
      destruct H as [<-|[]]. auto.
    + destruct (IH H) as (q & Hq & Hd). exists q. split; [now right | exact Hd].
Qed.

Lemma declaredProperties_proto params :
  ~ In (js "__proto__") (alist_keys (declaredProperties params)).
Proof.
  induction params as [|p params IH]; [intros []|].
  rewrite declaredProperties_cons. unfold alist_keys.
  rewrite map_app, in_app_iff. intros [H|H]; [|exact (IH H)].
  destruct (param_name p) as [n|]; [|destruct H].
  destruct (param_in p); [|destruct H].
  destruct (param_schema p); [|destruct H].
  destruct (str_eqb n (js "__proto__")) eqn:E; [destruct H|].
  apply str_eqb_neq in E. destruct H as [H|[]]. simpl in H. congruence.
Qed.

(** X5.  In the registered descriptor, the property under a name other
    than [__proto__] is the one set by the last entry of [parameters] that
    has [name] and [in] and that name (an earlier entry of the same name
    is overwritten); there is no property under a name that no such entry
    has, and none under [__proto__], whatever the entries are. *)
Theorem X5_last_entry_of_a_name_sets_the_property
    (path method : jsstring) (op : OperationObject) (w w' : World)
    (Hrun : registerOperation path method op w = (inr tt, w')) :
  exists tool,
    alist_get (tools w') (toolIdOf method path) = Some tool
    /\ (forall before param after name paramSchema,
          parametersOf op = before ++ param :: after ->
          declares name param ->
          name <> js "__proto__" ->
          param_schema param = Some paramSchema ->
          (forall later, In later after -> ~ declares name later) ->
          alist_get (properties (inputSchema tool)) name
          = Some (propertyOf name param paramSchema))
    /\ (forall name,
          (forall param, In param (parametersOf op) -> ~ declares name param) ->
          alist_get (properties (inputSchema tool)) name = None)
    /\ alist_get (properties (inputSchema tool)) (js "__proto__") = None.
Proof.
  destruct (registerOperation_completed _ _ _ _ _ Hrun)
    as (schema & Hs & Hc & ->).
  eexists. split; [apply alist_get_set_same|]. cbn [inputSchema].
  rewrite inputSchemaOf_run, Hc in Hs. injection Hs as <-.
  cbn [properties]. fold (parametersOf op). split; [|split].
  - intros before param after name paramSchema Hsplit [Hd Hn] Hproto Hsch
      Hlater.
    rewrite setAll_get, Hsplit, declaredProperties_app, lastWrite_app.
    rewrite declaredProperties_cons.
    unfold entryDeclared, entryName in Hd, Hn.
    destruct (param_name param) as [n|]; [|discriminate].
    destruct (param_in param); [|discriminate].
    rewrite Hsch. subst n. apply str_eqb_neq in Hproto. rewrite Hproto.
    rewrite lastWrite_app.
    assert (Hnone : lastWrite (declaredProperties after) name = None).
    { apply lastWrite_none. intros Hin.
      destruct (declaredProperties_keys _ _ Hin) as (q & Hq & Hdq).
      exact (Hlater q Hq Hdq). }
    rewrite Hnone. unfold lastWrite at 1. simpl. now rewrite str_eqb_refl.
  - intros name Hnone. rewrite setAll_get.
    assert (H : lastWrite (declaredProperties (parametersOf op)) name = None).
    { apply lastWrite_none. intros Hin.
      destruct (declaredProperties_keys _ _ Hin) as (q & Hq & Hdq).
      exact (Hnone q Hq Hdq). }
    now rewrite H.
  - rewrite setAll_get.
    assert (H : lastWrite (declaredProperties (parametersOf op))
                  (js "__proto__") = None)
      by apply lastWrite_none, declaredProperties_proto.
    now rewrite H.
Qed.

(** ** Which operation an identifier ends up with *)

Lemma descriptorsOf_app ops1 ops2 :
  descriptorsOf (ops1 ++ ops2)
  = match descriptorsOf ops1 with
    | inl e => inl e
    | inr entries1 =>
        match descriptorsOf ops2 with
        | inl e => inl e
        | inr entries2 => inr (entries1 ++ entries2)
        end
    end.
Proof.
  induction ops1 as [|t ops1 IH]; simpl.
  - destruct (descriptorsOf ops2); reflexivity.
  - destruct (descriptorOf t); [reflexivity|]. rewrite IH.
    destruct (descriptorsOf ops1); [reflexivity|].
    destruct (descriptorsOf ops2); reflexivity.
Qed.

Lemma descriptorOf_key t entry :
  descriptorOf t = inr entry -> fst entry = identifierOf t.
Proof.
  destruct t as [[path method] op]. unfold descriptorOf.
  destruct (inputSchemaOf op); [discriminate|]. now intros [= <-].
Qed.

Lemma descriptorsOf_keys ops entries :
  descriptorsOf ops = inr entries ->
  alist_keys entries = map identifierOf ops.
Proof.
  revert entries. induction ops as [|t ops IH]; intros entries H.
  - now injection H as <-.
  - simpl in H. destruct (descriptorOf t) as [e|entry] eqn:Ed; [discriminate|].
    destruct (descriptorsOf ops) as [e|rest]; [discriminate|].
    injection H as <-. simpl. f_equal; [now apply descriptorOf_key | now apply IH].
Qed.

(** X6.  After a compilation that completes, the descriptor registered
    under an identifier is that of the last operation, in document order,
    that has the identifier: an earlier operation whose identifier
    collides is overwritten without notice. *)
Theorem X6_last_operation_of_an_identifier_wins
    (spec : Document) (w w' : World)
    (before after : list (jsstring * jsstring * OperationObject))
    (t : jsstring * jsstring * OperationObject)
    (Hrun : parseOpenAPISpec spec w = (inr tt, w'))
    (Hsplit : operationsOf spec = before ++ t :: after)
    (Hlast : forall later, In later after -> identifierOf later <> identifierOf t) :
  exists tool,
    descriptorOf t = inr (identifierOf t, tool)
    /\ alist_get (tools w') (identifierOf t) = Some tool.
Proof.
  destruct (parseOpenAPISpec_completed _ _ _ Hrun) as (entries & He & ->).
  rewrite Hsplit, descriptorsOf_app in He.
  destruct (descriptorsOf before) as [e|eb]; [discriminate|].
  change (t :: after) with ([t] ++ after) in He.
  rewrite descriptorsOf_app in He. simpl in He.
  destruct (descriptorOf t) as [e|[k tool]] eqn:Ed; [discriminate|].
  pose proof (descriptorOf_key _ _ Ed) as Hk. simpl in Hk. subst k.
  destruct (descriptorsOf after) as [e|ea] eqn:Ea; [discriminate|].
  injection He as <-. exists tool. split; [reflexivity|].
  cbn [tools].
  change ((identifierOf t, tool) :: ea) with ([(identifierOf t, tool)] ++ ea).
  rewrite setAll_get, !lastWrite_app.
  assert (Hnone : lastWrite ea (identifierOf t) = None).
  { apply lastWrite_none. rewrite (descriptorsOf_keys _ _ Ea).
    intros Hin. apply in_map_iff in Hin. destruct Hin as (l & Hl & Hin).
    exact (Hlast l Hin Hl). }
  rewrite Hnone. unfold lastWrite at 1. simpl. now rewrite str_eqb_refl.
Qed.

(** ** The keys of the registry through a compilation *)

Lemma str_in_dec (k : jsstring) (l : list jsstring) : {In k l} + {~ In k l}.
Proof. apply in_dec, list_eq_dec, N.eq_dec. Qed.

Lemma alist_set_keys_present {V} (m : alist V) k v :
  In k (alist_keys m) -> alist_keys (alist_set m k v) = alist_keys m.
Proof.
  induction m as [|[k0 v0] m IH]; simpl; [intros []|].
  destruct (str_eqb k0 k) eqn:E; [reflexivity|].
  apply str_eqb_neq in E. intros [H|H]; [congruence|].
  simpl. f_equal. apply IH, H.
Qed.

Lemma alist_set_keys_absent {V} (m : alist V) k v :
  ~ In k (alist_keys m) -> alist_keys (alist_set m k v) = alist_keys m ++ [k].
Proof.
  induction m as [|[k0 v0] m IH]; simpl; [reflexivity|].
  intros H. destruct (str_eqb k0 k) eqn:E.
  - apply str_eqb_eq in E. tauto.
  - simpl. f_equal. apply IH. tauto.
Qed.

Lemma alist_set_NoDup {V} (m : alist V) k v :
  NoDup (alist_keys m) -> NoDup (alist_keys (alist_set m k v)).
Proof.
  intros H. destruct (str_in_dec k (alist_keys m)) as [Hin|Hnot].
  - now rewrite alist_set_keys_present.
  - rewrite alist_set_keys_absent by exact Hnot.
    apply NoDup_app; [exact H | repeat constructor; intros [] |].
    intros x Hx [<-|[]]. tauto.
Qed.

Lemma setAll_NoDup {V} (entries : list (jsstring * V)) (m : alist V) :
  NoDup (alist_keys m) -> NoDup (alist_keys (setAll entries m)).
Proof.
  revert m. induction entries as [|e entries IH]; intros m H; [exact H|].
  rewrite setAll_cons. apply IH, alist_set_NoDup, H.
Qed.

Lemma setAll_keys {V} (entries : list (jsstring * V)) (m : alist V) :
  exists added,
    alist_keys (setAll entries m) = alist_keys m ++ added
    /\ forall k, In k added <->
                 In k (alist_keys entries) /\ ~ In k (alist_keys m).
Proof.
  revert m. induction entries as [|[k0 v0] entries IH]; intros m.
  - exists []. split; [now rewrite app_nil_r|]. simpl. tauto.
  - rewrite setAll_cons. simpl fst. simpl snd.
    destruct (IH (alist_set m k0 v0)) as (added & Hkeys & Hadded).
    destruct (str_in_dec k0 (alist_keys m)) as [Hin|Hnot].
    + rewrite alist_set_keys_present in Hkeys, Hadded by exact Hin.
      exists added. split; [exact Hkeys|]. intros k. rewrite Hadded.
      simpl. split; [tauto|]. intros [[<-|H] Hk]; tauto.
    + rewrite alist_set_keys_absent in Hkeys, Hadded by exact Hnot.
      exists (k0 :: added). split.
      * rewrite Hkeys, <- app_assoc. reflexivity.
      * intros k. simpl. rewrite Hadded, in_app_iff. simpl.
        destruct (list_eq_dec N.eq_dec k0 k) as [<-|Hne]; [tauto|].
        split; [intros [H|H]; tauto | intros [[H|H] Hk]; tauto].
Qed.

(** X7.  A compilation that completes keeps the tools that were registered
    before it in their places and appends the new identifiers after them:
    the keys of the registry are the old keys followed by identifiers of
    reached operations that were not keys before, and a tool whose
    identifier no reached operation has is left as it was. *)
Theorem X7_compile_appends_to_the_registry
    (spec : Document) (w w' : World)
    (Hrun : parseOpenAPISpec spec w = (inr tt, w')) :
  (exists added,
      alist_keys (tools w') = alist_keys (tools w) ++ added
      /\ forall k, In k added <->
                   (exists t, In t (operationsOf spec) /\ identifierOf t = k)
                   /\ ~ In k (alist_keys (tools w)))
  /\ (forall k,
        (forall t, In t (operationsOf spec) -> identifierOf t <> k) ->
        alist_get (tools w') k = alist_get (tools w) k).
Proof.
  destruct (parseOpenAPISpec_completed _ _ _ Hrun) as (entries & He & ->).
  cbn [tools]. pose proof (descriptorsOf_keys _ _ He) as Hk. split.
  - destruct (setAll_keys entries (tools w)) as (added & Hkeys & Hadded).
    exists added. split; [exact Hkeys|]. intros k.
    rewrite Hadded, Hk, in_map_iff.
    split; intros [(t & H1 & H2) Hn]; (split; [exists t; tauto | exact Hn]).
  - intros k Hnone. rewrite setAll_get.
    assert (H : lastWrite entries k = None).
    { apply lastWrite_none. rewrite Hk, in_map_iff.
      intros (t & Ht & Hin). exact (Hnone t Hin Ht). }
    now rewrite H.
Qed.

Lemma alist_ext {V} (m1 m2 : alist V) :
  NoDup (alist_keys m1) ->
  alist_keys m1 = alist_keys m2 ->
  (forall k, alist_get m1 k = alist_get m2 k) ->
  m1 = m2.
Proof.
  revert m2. induction m1 as [|[k v] m1 IH]; intros [|[k' v'] m2] Hnd Hk Hg;
    try discriminate; [reflexivity|].
  simpl in Hk. injection Hk as <- Hk. inversion Hnd as [|? ? Hfresh Hnd']; subst.
  pose proof (Hg k) as Hv. simpl in Hv. rewrite str_eqb_refl in Hv.
  injection Hv as <-. f_equal. apply IH; [exact Hnd' | exact Hk |].
  intros k0. specialize (Hg k0). simpl in Hg.
  destruct (str_eqb k k0) eqn:E; [|exact Hg].
  apply str_eqb_eq in E. subst k0.
  assert (H1 : alist_get m1 k = None).
  { destruct (alist_get m1 k) eqn:E1; [|reflexivity].
    apply alist_get_key in E1. contradiction. }
  assert (H2 : alist_get m2 k = None).
  { destruct (alist_get m2 k) eqn:E2; [|reflexivity].
    apply alist_get_key in E2. rewrite <- Hk in E2. contradiction. }
  congruence.
Qed.

Lemma setAll_twice {V} (entries : list (jsstring * V)) (m : alist V) :
  NoDup (alist_keys m) ->
  setAll entries (setAll entries m) = setAll entries m.
Proof.
  intros Hnd.
  destruct (setAll_keys entries m) as (added & Hkeys & Hadded).
  destruct (setAll_keys entries (setAll entries m))
    as (again & Hkeys2 & Hagain).
  assert (Hnil : again = []).
  { destruct again as [|k again]; [reflexivity|]. exfalso.
    destruct (proj1 (Hagain k) (or_introl eq_refl)) as [Hin Hnot].
    apply Hnot. rewrite Hkeys, in_app_iff.
    destruct (str_in_dec k (alist_keys m)) as [H|H]; [now left|].
    right. apply Hadded. tauto. }
  subst again. rewrite app_nil_r in Hkeys2.
  apply alist_ext.
  - apply setAll_NoDup, setAll_NoDup, Hnd.
  - exact Hkeys2.
  - intros k. rewrite !setAll_get. destruct (lastWrite entries k); reflexivity.
Qed.

(** X8.  Compiling the same document again into the registry it produced
    changes nothing in the registry: every identifier keeps its place and
    its descriptor. *)
Theorem X8_recompiling_changes_nothing
    (spec : Document) (w w1 : World)
    (Hrun : parseOpenAPISpec spec w = (inr tt, w1))
    (Hkeys : NoDup (alist_keys (tools w))) :
  exists w2,
    parseOpenAPISpec spec w1 = (inr tt, w2) /\ tools w2 = tools w1.
Proof.
  destruct (parseOpenAPISpec_completed _ _ _ Hrun) as (entries & He & ->).
  eexists. split; [apply (parseOpenAPISpec_run _ _ _ He)|].
  cbn [tools]. now apply setAll_twice.
Qed.

(** ** Names and identifiers of compiled tools *)

Lemma collapseUnderscores_nonempty s : s <> [] -> collapseUnderscores s <> [].
Proof.
  destruct s as [|c rest]; [congruence|]. intros _.
  destruct (collapseUnderscores_head c rest) as [t ->]. discriminate.
Qed.

Lemma collapseUnderscores_fixed s :
  hasDoubleUnderscore s = false -> collapseUnderscores s = s.
Proof.
  induction s as [|c rest IH]; [reflexivity|].
  destruct rest as [|d rest']; [reflexivity|].
  rewrite hasDoubleUnderscore_cons2, collapseUnderscores_cons2.
  intros H. apply orb_false_iff in H. destruct H as [-> H].
  now rewrite (IH H).
Qed.

Lemma toolNameOf_nonempty summary method path :
  toolNameOf summary method path <> [].
Proof.
  unfold toolNameOf.
  set (source := match orElse summary [] with
                 | [] => _
                 | _ :: _ => _
                 end).
  assert (Hsource : source <> []).
  { unfold source. destruct (orElse summary []); [|discriminate].
    destruct (toUpperCase method); discriminate. }
  assert (Hclean : collapseUnderscores
                     (replaceOutside isNameChar UNDERSCORE source) <> []).
  { apply collapseUnderscores_nonempty. unfold replaceOutside.
    destruct source; [congruence | discriminate]. }
  destruct (collapseUnderscores _) as [|c cleaned]; [congruence|].
  destruct (64 <? _)%nat; discriminate.
Qed.

(** X9.  A summary that already is a Tool Name (not empty, at most 64
    code units, all in [[A-Za-z0-9_-]], no two underscores in a row) is
    the Tool Name, unchanged. *)
Theorem X9_well_formed_summary_is_the_name
    (summary method path : jsstring)
    (Hnonempty : summary <> [])
    (Hlength : (List.length summary <= 64)%nat)
    (Hchars : Forall (fun c => isNameChar c = true) summary)
    (Hruns : hasDoubleUnderscore summary = false) :
  toolNameOf (Some summary) method path = summary.
Proof.
  unfold toolNameOf.
  destruct summary as [|c rest]; [congruence|]. cbn [orElse].
  rewrite (replaceOutside_fixed _ _ _ Hchars).
  rewrite (collapseUnderscores_fixed _ Hruns).
  apply Nat.ltb_ge in Hlength. now rewrite Hlength.
Qed.

Lemma split_without_sep sep s :
  Forall (fun c => c <> sep) s -> split sep s = [s].
Proof.
  induction 1 as [|c rest Hc _ IH]; [reflexivity|].
  apply N.eqb_neq in Hc. rewrite split_cons_other by exact Hc.
  now rewrite IH.
Qed.

Lemma isAlnum_idChar c : isAlnum c = true -> isIdChar c = true /\ c <> HYPHEN.
Proof.
  unfold isAlnum, isIdChar. intros H. rewrite H. split; [reflexivity|].
  intros ->. discriminate.
Qed.

Lemma idChar_isAlnum c : isIdChar c = true -> c <> HYPHEN -> isAlnum c = true.
Proof.
  unfold isAlnum, isIdChar. intros H Hne. apply N.eqb_neq in Hne.
  now rewrite Hne, orb_false_r in H.
Qed.

Lemma toolIdOf_app method path :
  toolIdOf method path
  = replaceOutside isIdChar HYPHEN (toUpperCase method)
    ++ HYPHEN :: replaceOutside isIdChar HYPHEN (stripLeadingSlash path).
Proof. unfold toolIdOf, replaceOutside. now rewrite map_app. Qed.

Lemma methodOf_toolIdOf
    (method path : jsstring)
    (Hmethod : Forall (fun c => isAlnum c = true) (toUpperCase method)) :
  methodOf (toolIdOf method path) = toUpperCase method
  /\ tl (split HYPHEN (toolIdOf method path))
     = split HYPHEN
         (replaceOutside isIdChar HYPHEN (stripLeadingSlash path)).
Proof.
  unfold methodOf. rewrite toolIdOf_app, split_app_sep.
  rewrite replaceOutside_fixed.
  - rewrite split_without_sep; [split; reflexivity|].
    eapply Forall_impl; [|exact Hmethod]. simpl. intros c Hc.
    now apply isAlnum_idChar.
  - eapply Forall_impl; [|exact Hmethod]. simpl. intros c Hc.
    now apply isAlnum_idChar.
Qed.

(** X10.  When the upper-cased method consists of letters and digits, the
    dispatcher takes exactly it back out of the identifier, and the path
    parts it takes out are the pieces between hyphens of the sanitized
    path. *)
Theorem X10_method_is_recovered
    (method path : jsstring)
    (Hmethod : Forall (fun c => isAlnum c = true) (toUpperCase method)) :
  methodOf (toolIdOf method path) = toUpperCase method
  /\ tl (split HYPHEN (toolIdOf method path))
     = split HYPHEN
         (replaceOutside isIdChar HYPHEN (stripLeadingSlash path)).
Proof. now apply methodOf_toolIdOf. Qed.

Lemma split_cons_sep sep rest : split sep (sep :: rest) = [] :: split sep rest.
Proof. simpl. now rewrite N.eqb_refl. Qed.

Lemma split_slashes_as_hyphens q :
  Forall (fun c => isAlnum c = true \/ c = SLASH) q ->
  split HYPHEN (replaceOutside isIdChar HYPHEN q) = split SLASH q.
Proof.
  induction 1 as [|c rest Hc _ IH]; [reflexivity|].
  unfold replaceOutside in *. simpl map.
  destruct Hc as [Hc| ->].
  - destruct (isAlnum_idChar _ Hc) as [Hid Hne]. rewrite Hid.
    assert (Hs : c <> SLASH) by (intros ->; discriminate).
    apply N.eqb_neq in Hne, Hs.
    rewrite !split_cons_other by assumption. now rewrite IH.
  - change (if isIdChar SLASH then SLASH else HYPHEN) with HYPHEN.
    rewrite !split_cons_sep. now rewrite IH.
Qed.

(** X11.  For an operation whose upper-cased method consists of letters
    and digits and whose path is a slash followed by letters, digits and
    slashes only, the path the dispatcher reconstructs from the identifier
    is the operation's path. *)
Theorem X11_plain_paths_are_reconstructed
    (method rest : jsstring)
    (Hmethod : Forall (fun c => isAlnum c = true) (toUpperCase method))
    (Hrest : Forall (fun c => isAlnum c = true \/ c = SLASH) rest) :
  pathOf (toolIdOf method (SLASH :: rest)) = SLASH :: rest.
Proof.
  unfold pathOf.
  rewrite (proj2 (methodOf_toolIdOf method (SLASH :: rest) Hmethod)).
  change (stripLeadingSlash (SLASH :: rest)) with rest.
  rewrite (split_slashes_as_hyphens _ Hrest), join_split.
  rewrite replaceAll_absent; [reflexivity|].
  eapply Forall_impl; [|exact Hrest]. simpl.
  intros c [Hc| ->]; [now apply isAlnum_idChar | discriminate].
Qed.

Lemma pathOf_units toolId :
  Forall (fun c => isIdChar c = true) toolId ->
  Forall (fun c => isAlnum c = true \/ c = SLASH) (pathOf toolId).
Proof.
  intros Hid. unfold pathOf. constructor; [now right|].
  pose proof (split_Forall _ HYPHEN _ Hid) as Hchars.
  pose proof (split_no_sep HYPHEN toolId) as Hnosep.
  pose proof (split_nonempty HYPHEN toolId) as Hne.
  destruct (split HYPHEN toolId) as [|m parts]; [congruence|]. simpl tl.
  inversion Hchars as [|? ? _ Hc]; subst.
  inversion Hnosep as [|? ? _ Hn]; subst.
  assert (Hparts : Forall (Forall (fun c => isAlnum c = true \/ c = SLASH)) parts).
  { clear - Hc Hn. induction parts as [|p parts IH]; [constructor|].
    inversion Hc; subst. inversion Hn; subst. constructor; [|auto].
    rewrite Forall_forall in *. intros c Hin. left.
    apply idChar_isAlnum; auto. }
  unfold replaceAll. apply Forall_map.
  eapply Forall_impl; [|apply (join_Forall _ [SLASH] parts); [|exact Hparts]].
  - intros c Hunit. cbv beta. destruct Hunit as [H| ->].
    + destruct (c =? HYPHEN); [now right | now left].
    + now right.
  - constructor; [now right | constructor].
Qed.

(** X12.  The path the dispatcher reconstructs from a compiled identifier
    consists of letters, digits and slashes only; so an operation whose
    path has any other code unit in it (a brace of a placeholder, an
    underscore, a dot, a hyphen) is never requested at its own path. *)
Theorem X12_other_paths_are_not_reconstructed
    (method path : jsstring) :
  Forall (fun c => isAlnum c = true \/ c = SLASH)
    (pathOf (toolIdOf method path))
  /\ (forall c, In c path -> isAlnum c = false -> c <> SLASH ->
        pathOf (toolIdOf method path) <> path).
Proof.
  assert (H : Forall (fun c => isAlnum c = true \/ c = SLASH)
                (pathOf (toolIdOf method path)))
    by apply pathOf_units, replaceOutside_idChars.
  split; [exact H|]. intros c Hin Hc Hs Heq. rewrite Heq in H.
  rewrite Forall_forall in H. destruct (H c Hin); congruence.
Qed.

(** ** What a tool call does to the server *)

Lemma callTool_cases request w :
  exists r w',
    callTool request w = (r, w')
    /\ tools w' = tools w /\ config w' = config w
    /\ (exists more, stderr w' = stderr w ++ more)
    /\ match r with
       | inl _ => sent w' = sent w
       | inr cfg => sent w' = sent w ++ [cfg]
       end.
Proof.
  unfold callTool, bind, console_error, this_tools, this_config, axios,
    liftE, throw, ret.
  cbn [tools config stderr sent].
  destruct (resolveTool (tools w) (call_id request) (call_name request))
    as [e|[[tool|] [[|c key]|]]];
    cbn [tools config stderr sent];
    try destruct (ToString (if truthy (call_id request)
                            then call_id request else call_name request));
    try destruct (URL_toString (cleanPathOf (pathOf (c :: key)))
                    (baseUrlOf (apiBaseUrl (config w)))) as [url|];
    try destruct (shapeArguments (methodOf (c :: key)) url
                    (headers (config w)) (call_arguments request));
    cbn [tools config stderr sent];
    (do 2 eexists; split; [reflexivity|]);
    cbn [tools config stderr sent]; rewrite <- ?app_assoc; eauto.
Qed.

(** X13.  However a tool call ends, and whatever the network answers,
    the handler leaves the registry and the configuration as they were,
    only adds lines to the log, and makes at most one HTTP request: none
    when it fails before the request (the caller then gets that error),
    and exactly one otherwise. *)
Theorem X13_a_call_reads_the_registry_and_sends_at_most_one_request
    (network : AxiosRequestConfig -> AxiosOutcome)
    (request : CallToolParams) (w : World) :
  let '(outcome, w', _) :=
    handleCallTool JSON_stringify JSON_stringify_pretty network request w in
  tools w' = tools w
  /\ config w' = config w
  /\ (exists more, stderr w' = stderr w ++ more)
  /\ match fst (callTool request w) with
     | inl e => sent w' = sent w /\ outcome = inl (ThrownJs e)
     | inr config => sent w' = sent w ++ [config]
     end.
Proof.
  unfold handleCallTool.
  destruct (callTool_cases request w)
    as ([e|cfg] & w' & Hrun & Ht & Hc & Hlog & Hs);
    rewrite Hrun; cbn [fst].
  - repeat split; auto.
  - destruct (handleResponse _ _ _) as [lines [error|result]];
      repeat split; auto.
Qed.

(** X14.  What the caller of a tool call gets: the one text block with
    the response data printed by [JSON.stringify(data, null, 2)] when the
    request is fulfilled; otherwise an ordinary error, never an
    [AxiosError]: what was thrown before the request ([Tool not found],
    the [TypeError] of an invalid URL or of a conversion to a string),
    [API request failed: message - data] for a request that failed with
    an [AxiosError], or, unchanged, whatever else the request was rejected
    with.  The outer handler's shorter [API request failed: message] never
    reaches the caller. *)
Theorem X14_what_the_caller_gets
    (network : AxiosRequestConfig -> AxiosOutcome)
    (request : CallToolParams) (w : World) :
  match fst (fst (handleCallTool JSON_stringify JSON_stringify_pretty
                    network request w)) with
  | inr result =>
      exists config w' response,
        callTool request w = (inr config, w')
        /\ network config = Fulfilled response
        /\ result = [{| text := JSON_stringify_pretty (resp_data response) |}]
  | inl (ThrownAxios _ _) => False
  | inl (ThrownJs e) =>
      fst (callTool request w) = inl e
      \/ exists config w',
           callTool request w = (inr config, w')
           /\ (network config = Rejected (ThrownJs e)
               \/ exists message response,
                    network config = Rejected (ThrownAxios message response)
                    /\ e = Error (js "API request failed: " ++ message
                                  ++ js " - "
                                  ++ interpolate
                                       (JSON_stringify
                                          (responseField resp_data response))))
  end.
Proof.
  unfold handleCallTool.
  destruct (callTool request w) as [[e|config] w'] eqn:Hrun; cbn [fst].
  - now left.
  - unfold handleResponse.
    destruct (network config) as [response|[e|message response]] eqn:Hnet;
      cbn [fst outerCatch].
    + exists config, w', response. auto.
    + right. exists config, w'. auto.
    + right. exists config, w'. split; [reflexivity|]. right.
      exists message, response. auto.
Qed.

(** ** Query parameters come from arguments *)

Lemma queryFrom_origin args q q' key s :
  queryParamsFrom q args = inr q' ->
  alist_get q' key = Some s ->
  alist_get q key = Some s
  \/ exists v, In (key, v) args /\ serialized v = inr (Some s).
Proof.
  revert q. induction args as [|[k v] args IH]; intros q Hrun H.
  - injection Hrun as <-. now left.
  - cbn [queryParamsFrom] in Hrun.
    destruct (queryStep q (k, v)) as [e|q1] eqn:Hstep; [discriminate|].
    destruct (IH _ Hrun H) as [Hq|(v' & Hin & Hv)].
    + rewrite queryStep_serialized in Hstep.
      destruct (serialized v) as [e|[s0|]] eqn:Hser; [discriminate| |].
      * injection Hstep as <-. unfold object_set in Hq.
        destruct (str_eqb k (js "__proto__")); [now left|].
        destruct (str_eqb k key) eqn:E.
        -- apply str_eqb_eq in E. subst k.
           rewrite alist_get_set_same in Hq. injection Hq as ->.
           right. exists v. split; [now left | exact Hser].
        -- apply str_eqb_neq in E.
           rewrite alist_get_set_other in Hq by exact E. now left.
      * injection Hstep as <-. now left.
    + right. exists v'. split; [now right | exact Hv].
Qed.

(** X15.  A request never carries both query parameters and a body, and
    every query parameter it carries comes from an argument of that name
    that is neither [null] nor [undefined], of which it is the comma-join
    (an array) or the string form (anything else). *)
Theorem X15_query_parameters_come_from_arguments
    (method url : jsstring) (hdrs : alist jsstring) (params : Arguments)
    (cfg : AxiosRequestConfig)
    (Hshaped : shapeArguments method url hdrs params = inr cfg) :
  (ax_params cfg = None \/ ax_data cfg = None)
  /\ (forall query key s,
        ax_params cfg = Some query ->
        alist_get query key = Some s ->
        exists args v,
          params = Some args /\ In (key, v) args
          /\ match v with
             | VArr elems => Array_join [COMMA] elems = inr s
             | VUndefined | VNull => False
             | _ => ToString v = inr s
             end).
Proof.
  revert Hshaped. unfold shapeArguments.
  destruct (str_eqb (toLowerCase method) (js "get")).
  - destruct params as [args|].
    + unfold queryParamsOf.
      destruct (queryParamsFrom [] args) as [e|q] eqn:Hq; [discriminate|].
      intros [= <-]. cbn [ax_params ax_data].
      split; [now right|]. intros query key s [= <-] Hs.
      destruct (queryFrom_origin _ _ _ _ _ Hq Hs) as [H|(v & Hin & Hv)];
        [discriminate|].
      exists args, v. split; [reflexivity|]. split; [exact Hin|].
      apply serialized_value in Hv.
      destruct v; try discriminate;
        destruct Hv as (s' & Hs' & [= ->]); exact Hs'.
    + intros [= <-]. cbn [ax_params ax_data].
      split; [now right | discriminate].
  - intros [= <-]. cbn [ax_params ax_data].
    split; [now left | discriminate].
Qed.

(** ** Calling what the listing shows *)

Lemma alist_set_Forall {V} (P : jsstring * V -> Prop) (m : alist V) k v :
  Forall P m -> P (k, v) -> Forall P (alist_set m k v).
Proof.
  intros Hm Hkv. induction m as [|[k0 v0] m IH]; simpl.
  - repeat constructor. exact Hkv.
  - inversion Hm as [|? ? H0 Hm']; subst.
    destruct (str_eqb k0 k) eqn:E.
    + apply str_eqb_eq in E. subst k0. now constructor.
    + constructor; [exact H0 | apply IH, Hm'].
Qed.

Lemma setAll_Forall {V} (P : jsstring * V -> Prop) entries (m : alist V) :
  Forall P m -> Forall P entries -> Forall P (setAll entries m).
Proof.
  revert m. induction entries as [|[k v] entries IH]; intros m Hm He;
    [exact Hm|].
  inversion He; subst. rewrite setAll_cons. apply IH; [|assumption].
  now apply alist_set_Forall.
Qed.

Lemma toolNameOf_wellShaped summary method path :
  wellShapedName (toolNameOf summary method path).
Proof.
  split; [apply toolNameOf_nonempty|].
  unfold toolNameOf.
  set (source := match orElse summary [] with
                 | [] => _
                 | _ :: _ => _
                 end).
  set (cleaned := collapseUnderscores
                    (replaceOutside isNameChar UNDERSCORE source)).
  assert (Hchars : Forall (fun c => isNameChar c = true) cleaned)
    by apply collapseUnderscores_Forall, replaceOutside_isNameChar.
  assert (Hruns : hasDoubleUnderscore cleaned = false)
    by apply collapseUnderscores_no_double.
  destruct (64 <? List.length cleaned)%nat eqn:E.
  - unfold substring0. split; [apply firstn_le_length|].
    split; [apply Forall_firstn_keeps, Hchars|].
    apply hasDoubleUnderscore_firstn, Hruns.
  - apply Nat.ltb_ge in E. auto.
Qed.

Lemma toolIdOf_nonempty method path : toolIdOf method path <> [].
Proof.
  rewrite toolIdOf_app.
  destruct (replaceOutside isIdChar HYPHEN (toUpperCase method)); discriminate.
Qed.

Lemma descriptorsOf_callable ops entries :
  descriptorsOf ops = inr entries -> Forall callable entries.
Proof.
  revert entries. induction ops as [|[[path method] op] ops IH];
    intros entries H.
  - injection H as <-. constructor.
  - simpl in H. rewrite inputSchemaOf_run in H.
    destruct (operationComplete op); [|discriminate].
    destruct (descriptorsOf ops) as [e|rest]; [discriminate|].
    injection H as <-. constructor; [|now apply IH].
    split; [apply toolIdOf_nonempty|].
    split; [apply toolNameOf_wellShaped | reflexivity].
Qed.

Lemma parseOpenAPISpec_callable spec w w' :
  parseOpenAPISpec spec w = (inr tt, w') ->
  Forall callable (tools w) -> Forall callable (tools w').
Proof.
  intros Hrun Hw.
  destruct (parseOpenAPISpec_completed _ _ _ Hrun) as (entries & He & ->).
  cbn [tools]. apply setAll_Forall; [exact Hw|].
  eapply descriptorsOf_callable, He.
Qed.

Lemma findByName_some registry tid t :
  In (tid, t) registry ->
  exists tid' t',
    findByName registry (VStr (tool_name t)) = Some (tid', t')
    /\ tool_name t' = tool_name t /\ In (tid', t') registry.
Proof.
  induction registry as [|[tid0 t0] registry IH]; [intros []|].
  intros Hin. simpl.
  destruct (str_eqb (tool_name t0) (tool_name t)) eqn:E.
  - apply str_eqb_eq in E. exists tid0, t0. simpl. auto.
  - destruct Hin as [[= -> ->]|Hin]; [now rewrite str_eqb_refl in E|].
    destruct (IH Hin) as (tid' & t' & Hf & Hn & Hi).
    exists tid', t'. simpl. auto.
Qed.

(** X16.  After a compilation that completes (into a registry whose
    entries have identifiers and names that are not empty, the empty
    registry for one), every tool the listing shows can be called by the
    name it is listed under: a call with that name and no [id] resolves a
    registered descriptor of that name, with an identifier that is not
    empty, so it does not fail with [Tool not found]. *)
Theorem X16_listed_tools_are_callable_by_name
    (spec : Document) (w w' : World)
    (Hrun : parseOpenAPISpec spec w = (inr tt, w'))
    (Hbefore : Forall callable (tools w)) :
  exists listed,
    listTools w' = (inr listed, w')
    /\ forall tool id,
         In tool listed -> truthy id = false ->
         exists tool' toolId,
           resolveTool (tools w') id (VStr (tool_name tool))
           = inr (Some tool', Some toolId)
           /\ tool_name tool' = tool_name tool
           /\ toolId <> []
           /\ In (toolId, tool') (tools w').
Proof.
  pose proof (parseOpenAPISpec_callable _ _ _ Hrun Hbefore) as Hafter.
  exists (map snd (tools w')). split; [reflexivity|].
  intros tool id Hin Hid. apply in_map_iff in Hin.
  destruct Hin as ([tid t] & <- & Hin). simpl snd.
  destruct (findByName_some _ _ _ Hin) as (tid' & t' & Hf & Hn & Hi).
  rewrite Forall_forall in Hafter.
  destruct (Hafter _ Hin) as (_ & (Hname & _) & _).
  destruct (Hafter _ Hi) as (Hkey & _).
  simpl in Hname, Hkey.
  exists t', tid'. unfold resolveTool. rewrite Hid.
  assert (Htruthy : truthy (VStr (tool_name t)) = true).
  { simpl. destruct (tool_name t) eqn:En; [congruence | reflexivity]. }
  rewrite Htruthy, Hf. auto.
Qed.

Lemma alist_split_unique {V} (b b' a a' : alist V) k v v' :
  NoDup (alist_keys (b ++ (k, v) :: a)) ->
  b ++ (k, v) :: a = b' ++ (k, v') :: a' ->
  b = b'.
Proof.
  revert b'. induction b as [|e b IH]; intros [|e' b'] Hnd H.
  - reflexivity.
  - exfalso. simpl in H. injection H as <- H. simpl in Hnd.
    inversion Hnd as [|? ? Hfresh _]; subst. apply Hfresh.
    unfold alist_keys. rewrite map_app. apply in_or_app. right. now left.
  - exfalso. simpl in H. injection H as -> H. simpl in Hnd.
    inversion Hnd as [|? ? Hfresh _]; subst. apply Hfresh.
    unfold alist_keys. rewrite map_app. apply in_or_app. right. now left.
  - simpl in H. injection H as <- H. f_equal. apply IH; [|exact H].
    simpl in Hnd. now inversion Hnd.
Qed.

(** X17.  In a registry with two entries of the same Tool Name, a call
    by name never resolves the later one: whatever name is given, without
    an [id] the identifier resolved is not the later entry's. *)
Theorem X17_a_duplicate_name_hides_the_later_tool
    (registry before between after : alist Tool)
    (toolId1 toolId2 : jsstring) (tool1 tool2 : Tool) (id name : value)
    (Hkeys : NoDup (alist_keys registry))
    (Hsplit : registry
              = before ++ (toolId1, tool1) :: between
                ++ (toolId2, tool2) :: after)
    (Hsame : tool_name tool1 = tool_name tool2)
    (Hid : truthy id = false) :
  exists resolved,
    resolveTool registry id name = inr resolved
    /\ snd resolved <> Some toolId2.
Proof.
  unfold resolveTool. rewrite Hid.
  destruct (truthy name);
    [|eexists; split; [reflexivity | discriminate]].
  destruct (findByName registry name) as [[tid t]|] eqn:Hf;
    [|eexists; split; [reflexivity | discriminate]].
  eexists; split; [reflexivity|].
  cbn [snd]. intros [= ->].
  destruct (findByName_first _ _ _ _ Hf) as (b & a & Hb & Hdiff & Hmatch).
  (* the entry found is the one under toolId2, which is tool2 *)
  assert (Hin : In (toolId2, t) registry)
    by (rewrite Hb; apply in_or_app; right; now left).
  assert (Hin2 : In (toolId2, tool2) registry).
  { rewrite Hsplit. apply in_or_app. right. right.
    apply in_or_app. right. now left. }
  assert (Hfun : forall (m : alist Tool) k v v',
             NoDup (alist_keys m) -> In (k, v) m -> In (k, v') m -> v = v').
  { clear. induction m as [|[k0 v0] m IH]; intros k v v' Hnd H1 H2;
      [destruct H1|].
    inversion Hnd as [|? ? Hfresh Hnd']; subst.
    destruct H1 as [E1|H1]; destruct H2 as [E2|H2].
    - congruence.
    - injection E1 as -> ->. exfalso. apply Hfresh.
      change k with (fst (k, v')). now apply in_map.
    - injection E2 as -> ->. exfalso. apply Hfresh.
      change k with (fst (k, v)). now apply in_map.
    - eapply IH; eauto. }
  pose proof (Hfun _ _ _ _ Hkeys Hin Hin2) as ->.
  (* tool1 comes earlier and has the same name *)
  rewrite Hb in Hsplit.
  assert (Hearlier : In (toolId1, tool1) b).
  { replace (before ++ (toolId1, tool1) :: between
             ++ (toolId2, tool2) :: after)
      with ((before ++ (toolId1, tool1) :: between)
            ++ (toolId2, tool2) :: after) in Hsplit
      by (now rewrite <- app_assoc).
    rewrite Hb in Hkeys.
    rewrite (alist_split_unique _ _ _ _ _ _ _ Hkeys Hsplit).
    apply in_or_app. right. now left. }
  rewrite Forall_forall in Hdiff. specialize (Hdiff _ Hearlier).
  unfold nameDiffers in Hdiff. simpl in Hdiff. rewrite Hsame in Hdiff.
  congruence.
Qed.

(** X18.  The listing is the registry's descriptors in the registry's
    order, one per identifier; after a compilation that completes (from
    the empty registry, say) each has an input schema of type [object] and
    a name that is not empty, has at most 64 code units, all in
    [[A-Za-z0-9_-]], and no two underscores in a row. *)
Theorem X18_the_listing_shows_well_formed_tools
    (spec : Document) (w w' : World)
    (Hrun : parseOpenAPISpec spec w = (inr tt, w'))
    (Hbefore : Forall callable (tools w)) :
  listTools w' = (inr (map snd (tools w')), w')
  /\ List.length (map snd (tools w')) = List.length (alist_keys (tools w'))
  /\ Forall (fun tool =>
               wellShapedName (tool_name tool)
               /\ schema_kind (inputSchema tool) = js "object")
       (map snd (tools w')).
Proof.
  split; [reflexivity|]. split.
  - unfold alist_keys. now rewrite !length_map.
  - pose proof (parseOpenAPISpec_callable _ _ _ Hrun Hbefore) as Hafter.
    apply Forall_map. eapply Forall_impl; [|exact Hafter].
    intros [tid t] (_ & Hn & Hk). auto.
Qed.

(** ** The configuration *)

Lemma orElse_nonempty a b : b <> [] -> orElse a b <> [].
Proof. intros Hb. destruct a as [[|c s]|]; simpl; congruence. Qed.

(** X19.  The server version [loadConfig] returns is never the empty
    string; it is ["1.0.1"] when the command line gives no
    [serverVersion]; and the environment variable [SERVER_VERSION] has no
    effect on it unless the command line gives an empty [serverVersion]. *)
Theorem X19_server_version
    (serverVersion : option jsstring) (env env' : ProcessEnv) :
  let version e := cfg_version (snd (fst (loadConfig serverVersion e))) in
  version env <> []
  /\ (serverVersion = None -> version env = js "1.0.1")
  /\ (serverVersion <> Some [] -> version env' = version env).
Proof.
  assert (Hversion : forall e,
            cfg_version (snd (fst (loadConfig serverVersion e)))
            = orElse (Some (argvServerVersion serverVersion))
                (orElse (SERVER_VERSION e) (js "1.0.1"))).
  { intros e. unfold loadConfig.
    destruct (ELEVENLABS_API_KEY e) as [[|c key]|]; reflexivity. }
  cbv beta zeta. rewrite !Hversion. split; [|split].
  - apply orElse_nonempty, orElse_nonempty. discriminate.
  - intros ->. reflexivity.
  - intros Hgiven. destruct serverVersion as [[|d v]|];
      [now contradiction Hgiven | reflexivity | reflexivity].
Qed.


(** X20.  With the configuration [loadConfig] returns, every request the
    dispatcher makes carries [Content-Type: application/json], carries
    [xi-api-key] with the value of [ELEVENLABS_API_KEY] exactly when that
    variable is set and not empty, and carries no other header; the
    warning about the key is logged exactly when no key header is sent. *)
Theorem X20_requests_carry_the_configured_headers
    (serverVersion : option jsstring) (env : ProcessEnv)
    (request : CallToolParams) (w w' : World) (sentConfig : AxiosRequestConfig)
    (Hconfig : config w = snd (fst (loadConfig serverVersion env)))
    (Hrun : callTool request w = (inr sentConfig, w')) :
  let key := match ELEVENLABS_API_KEY env with
             | Some (c :: k) => Some (c :: k)
             | Some [] | None => None
             end in
  alist_get (ax_headers sentConfig) (js "Content-Type")
  = Some (js "application/json")
  /\ alist_get (ax_headers sentConfig) (js "xi-api-key") = key
  /\ (forall name, name <> js "Content-Type" -> name <> js "xi-api-key" ->
        alist_get (ax_headers sentConfig) name = None)
  /\ (fst (fst (loadConfig serverVersion env)) = [] <-> key <> None).
Proof.
  destruct (callTool_inr _ _ _ _ Hrun)
    as (tool & toolId & url & _ & _ & Hshape & _ & _ & _).
  destruct (shapeArguments_fields _ _ _ _ _ Hshape) as (_ & _ & ->).
  rewrite Hconfig. cbv zeta. unfold loadConfig.
  destruct (ELEVENLABS_API_KEY env) as [[|c key]|]; cbn [fst snd headers].
  - split; [reflexivity|]. split; [reflexivity|]. split.
    + intros name H1 H2. rewrite alist_get_set.
      apply not_eq_sym, str_eqb_neq in H1. now rewrite H1.
    + split; [discriminate | congruence].
  - split; [reflexivity|]. split; [reflexivity|]. split.
    + intros name H1 H2. rewrite !alist_get_set.
      apply not_eq_sym, str_eqb_neq in H1, H2. now rewrite H1, H2.
    + split; [discriminate | reflexivity].
  - split; [reflexivity|]. split; [reflexivity|]. split.
    + intros name H1 H2. rewrite alist_get_set.
      apply not_eq_sym, str_eqb_neq in H1. now rewrite H1.
    + split; [discriminate | congruence].
Qed.

(** ** A compiled identifier finds its own tool *)




End MoreProofs.

(** * The ASCII runtime meets the assumptions on [toUpperCase] *)

#[local] Existing Instance asciiRuntime.

Lemma asciiUpper_not_lower c : isLower (asciiUpper c) = false.
Proof.
  unfold asciiUpper. destruct (isLower c) eqn:E; [|exact E].
  unfold isLower in *. apply andb_true_iff in E. destruct E as [E1 E2].
  apply N.leb_le in E1, E2. apply andb_false_iff. left.
  apply N.leb_gt. lia.
Qed.

Lemma asciiUpper_no_lower (s : jsstring) :
  Forall (fun c => isLower c = false) (@toUpperCase asciiRuntime s).
Proof.
  simpl. apply Forall_map, Forall_forall. intros c _.
  apply asciiUpper_not_lower.
Qed.

Lemma asciiUpper_fixed (s : jsstring) :
  Forall (fun c => isUpper c || isDigit c = true) s ->
  @toUpperCase asciiRuntime s = s.
Proof.
  intros H. simpl. apply map_id_on. eapply Forall_impl; [|exact H].
  simpl. intros c Hc. unfold asciiUpper.
  destruct (isLower c) eqn:E; [|reflexivity].
  unfold isLower, isUpper, isDigit in *.
  apply andb_true_iff in E. destruct E as [E1 E2].
  apply N.leb_le in E1, E2.
  apply orb_true_iff in Hc. destruct Hc as [Hc|Hc];
    apply andb_true_iff in Hc; destruct Hc as [H1 H2];
    apply N.leb_le in H1, H2; lia.
Qed.

(** * The theorems at the sample document and calls *)

Lemma C1_witness :
  exists tool,
    alist_get (tools sampleWorld) (js "GET-v1-voices") = Some tool.
Proof.
  destruct (@C1_tool_identifier_derivation asciiRuntime
              sampleDocument emptyWorld sampleWorld
              (js "/v1/voices") (js "get") voicesItem listVoices)
    as [H _].
  - reflexivity.
  - simpl. auto.
  - simpl. auto.
  - discriminate.
  - exact H.
Defined.


Lemma C3_witness :
  exists w',
    callTool unknownCall sampleWorld
    = (inl (Error (js "Tool not found: DELETE-nonexistent")), w')
    /\ sent w' = [] /\ tools w' = tools sampleWorld.
Proof.
  pose proof (@C3_unknown_identifier asciiRuntime unknownCall sampleWorld
                (VStr (js "DELETE-nonexistent"))
                ltac:(repeat constructor)
                (or_introl (conj eq_refl eq_refl))) as H.
  hnf in H.
  destruct (H eq_refl) as (asked & w' & Hasked & Hrun & Hsent & Htools & _).
  injection Hasked as <-.
  exists w'. split; [exact Hrun|]. split; [exact Hsent | exact Htools].
Defined.

Lemma C4_witness :
  toolIdOf (R := asciiRuntime)
    (methodOf (js "GET-v1-voices--voice-id-"))
    (pathOf (js "GET-v1-voices--voice-id-"))
  = js "GET-v1-voices--voice-id-".
Proof.
  apply (@C4_identifier_round_trip asciiRuntime
           asciiUpper_no_lower asciiUpper_fixed
           (js "get") (js "/v1/voices/{voice_id}")).
  simpl. intuition discriminate.
Defined.

Lemma C6_witness :
  (exists schema',
      addParameter emptyInputSchema searchEntry = inr schema'
      /\ alist_get (properties schema') (js "search")
         = Some {| prop_type := js "string";
                   prop_description := js "Search term" |})
  /\ (exists schema',
        addParameter emptyInputSchema protoEntry = inr schema'
        /\ properties schema' = []).
Proof.
  split.
  - destruct (proj2 (@C6_parameter_entries emptyInputSchema searchEntry)
                (js "search") (js "query") {| schema_type := None |}
                eq_refl eq_refl eq_refl)
      as (schema' & Hadd & Hprop & _).
    exists schema'. split; [exact Hadd|].
    apply Hprop. discriminate.
  - destruct (proj2 (@C6_parameter_entries emptyInputSchema protoEntry)
                (js "__proto__") (js "query")
                {| schema_type := Some (js "string") |}
                eq_refl eq_refl eq_refl)
      as (schema' & Hadd & _ & Hproto & _).
    exists schema'. split; [exact Hadd|].
    apply Hproto. reflexivity.
Defined.

Lemma C7_witness :
  resolveTool (tools sampleWorld) (VStr (js "GET-v1-voices"))
    (VStr (js "POST_v1_voices_add"))
  = inr (alist_get (tools sampleWorld) (js "GET-v1-voices"),
         Some (js "GET-v1-voices"))
  /\ exists tool,
       resolveTool (tools sampleWorld) VUndefined
         (VStr (js "POST_v1_voices_add"))
       = inr (Some tool, Some (js "POST-v1-voices-add")).
Proof.
  split.
  - exact (proj1 (@C7_resolution_order asciiRuntime (tools sampleWorld)
                    (VStr (js "GET-v1-voices"))
                    (VStr (js "POST_v1_voices_add"))) eq_refl).
  - destruct (proj2 (@C7_resolution_order asciiRuntime (tools sampleWorld)
                       VUndefined (VStr (js "POST_v1_voices_add")))
                eq_refl eq_refl)
      as [(before & tid & t & after & _ & _ & _ & Hres)
         |[_ Hres]].
    + exists t. rewrite Hres. vm_compute in Hres.
      injection Hres as _ <-. reflexivity.
    + vm_compute in Hres. discriminate Hres.
Defined.


Lemma C9_witness :
  exists w',
    callTool unknownCall sampleWorld
    = (inl (Error (js "Tool not found: DELETE-nonexistent")), w')
    /\ includes (js "GET-v1-voices (List_voices)")
         (availableTools (tools sampleWorld)) = true.
Proof.
  destruct (@C9_not_found_diagnostics asciiRuntime unknownCall sampleWorld
              (Some (js "DELETE-nonexistent")) eq_refl)
    as (w' & Hrun & _ & Hall).
  exists w'. split; [exact Hrun|].
  apply (Hall (js "GET-v1-voices") listVoicesTool).
  left. reflexivity.
Defined.

Lemma C10_witness :
  resolveTool (tools sampleWorld) (VStr (js " GET-v1-voices ")) VUndefined
  = resolveTool (tools sampleWorld) (VStr (js "GET-v1-voices")) VUndefined.
Proof.
  apply (proj2 (@C10_lookup_trims_strings asciiRuntime (tools sampleWorld)
                  (VStr (js " GET-v1-voices ")) VUndefined eq_refl)
           (js "GET-v1-voices") (js " GET-v1-voices ") 71 115 VUndefined);
    try reflexivity.
  exists [32], [32]. repeat split; repeat constructor.
Defined.

(** * Where the code departs from the claims as they are worded *)

(** C3.  [" GET-v1-voices "] is no key of the registry and no Tool Name,
    and a dispatch of it resolves a descriptor and makes the HTTP call. *)
Lemma C3_counterexample :
  alist_get (tools sampleWorld) (js " GET-v1-voices ") = None
  /\ Forall (nameDiffers (VStr (js " GET-v1-voices "))) (tools sampleWorld)
  /\ match callTool paddedCall sampleWorld with
     | (inr cfg, w') =>
         sent w' = [cfg]
         /\ ax_url cfg = js "https://api.elevenlabs.io/v1/voices"
     | (inl _, _) => False
     end.
Proof.
  split; [reflexivity|]. split; [repeat constructor|].
  vm_compute. split; reflexivity.
Qed.

(** C6.  The entry [sort] has a [name] and no [in]; it is skipped, and the
    compiled descriptor has no property [sort]. *)
Lemma C6_counterexample :
  param_name sortEntry = Some (js "sort")
  /\ addParameter emptyInputSchema sortEntry = inr emptyInputSchema
  /\ option_map
       (fun tool => alist_get (properties (inputSchema tool)) (js "sort"))
       (alist_get (tools sampleWorld) (js "GET-v1-voices"))
     = Some None.
Proof. repeat split. Qed.


(** C9.  The error returned for an unknown identifier does not mention the
    registered identifier [GET-v1-voices]. *)
Lemma C9_counterexample :
  (exists tool, alist_get (tools sampleWorld) (js "GET-v1-voices") = Some tool)
  /\ fst (callTool unknownCall sampleWorld)
     = inl (Error (js "Tool not found: DELETE-nonexistent"))
  /\ includes (js "GET-v1-voices")
       (js "Tool not found: DELETE-nonexistent") = false.
Proof.
  split; [eexists; reflexivity|]. split; reflexivity.
Qed.

(** C10.  An identifier that is the array [[" GET-v1-voices "]] is
    converted to [" GET-v1-voices "] and looked up untrimmed: nothing is
    found, although the trimmed text is a key of the registry. *)
Lemma C10_counterexample :
  truthy arrayId = true
  /\ ToString arrayId = inr (js " GET-v1-voices ")
  /\ (exists tool,
        alist_get (tools sampleWorld) (trim (js " GET-v1-voices "))
        = Some tool)
  /\ resolveTool (tools sampleWorld) arrayId VUndefined
     = inr (None, Some (js " GET-v1-voices ")).
Proof.
  split; [reflexivity|]. split; [reflexivity|].
  split; [eexists; reflexivity | reflexivity].
Qed.


(** C7.  The identifier [{"toString": 1}] is supplied together with the
    name of a registered tool, which alone would resolve: the registry is
    not asked for the identifier, its conversion throws, and the call
    fails with that [TypeError] right after the two lines every call
    logs. *)
Lemma C7_counterexample :
  truthy oddObject = true
  /\ resolveTool (tools sampleWorld) oddObject (VStr (js "List_voices"))
     = inl notPrimitiveError
  /\ resolveTool (tools sampleWorld) VUndefined (VStr (js "List_voices"))
     = inr (Some listVoicesTool, Some (js "GET-v1-voices"))
  /\ match callTool oddIdCall sampleWorld with
     | (inl e, w') =>
         e = notPrimitiveError /\ sent w' = []
         /\ stderr w' = stderr sampleWorld ++ received oddIdCall
     | (inr _, _) => False
     end.
Proof.
  split; [reflexivity|]. split; [reflexivity|]. split; [reflexivity|].
  vm_compute. repeat split.
Qed.

(** * More of the server, at the samples *)

Lemma X1_witness :
  alist_keys (tools (snd (parseOpenAPISpec sampleDocument emptyWorld)))
  = [js "GET-v1-voices"; js "POST-v1-voices-add"; js "GET--id-"]
  /\ List.length (stderr (snd (parseOpenAPISpec sampleDocument emptyWorld)))
     = 3%nat.
Proof.
  rewrite (@X1_compile_is_set_in_document_order asciiRuntime
             sampleDocument emptyWorld sampleEntries eq_refl).
  split; reflexivity.
Defined.

Lemma X2_witness :
  fst (parseOpenAPISpec brokenDocument emptyWorld) = inl missingSchemaError
  /\ alist_keys (tools (snd (parseOpenAPISpec brokenDocument emptyWorld)))
     = [js "GET-v1-models"].
Proof.
  destruct (@X2_compile_stops_at_first_throw asciiRuntime
              brokenDocument emptyWorld missingSchemaError eq_refl)
    as (before & t & after & entries & Hsplit & Hbefore & Ht & Hrun).
  split; [now rewrite Hrun | reflexivity].
Defined.

Lemma X4_witness :
  exists tool,
    alist_get
      (tools (snd (registerOperation (js "/v1/voices") (js "get")
                     listVoices emptyWorld)))
      (js "GET-v1-voices") = Some tool
    /\ required (inputSchema tool) = Some [js "search"].
Proof.
  destruct (@X4_required_lists_required_entries asciiRuntime
              (js "/v1/voices") (js "get") listVoices emptyWorld
              (snd (registerOperation (js "/v1/voices") (js "get")
                      listVoices emptyWorld)) eq_refl)
    as (tool & Hget & _ & Hrequired).
  exists tool. split; [exact Hget | exact Hrequired].
Defined.

Lemma X5_witness :
  exists tool,
    alist_get
      (tools (snd (registerOperation (js "/x") (js "get")
                     twiceLimited emptyWorld)))
      (js "GET-x") = Some tool
    /\ alist_get (properties (inputSchema tool)) (js "limit")
       = Some {| prop_type := js "integer";
                 prop_description := js "limit parameter" |}.
Proof.
  destruct (@X5_last_entry_of_a_name_sets_the_property asciiRuntime
              (js "/x") (js "get") twiceLimited emptyWorld
              (snd (registerOperation (js "/x") (js "get")
                      twiceLimited emptyWorld)) eq_refl)
    as (tool & Hget & Hlast & _).
  exists tool. split; [exact Hget|].
  apply (Hlast [limitAsString] limitAsInteger [] (js "limit")
           {| schema_type := Some (js "integer") |}).
  - reflexivity.
  - split; reflexivity.
  - discriminate.
  - reflexivity.
  - intros later [].
Defined.

Lemma X6_witness :
  exists tool,
    alist_get (tools (snd (parseOpenAPISpec collidingDocument emptyWorld)))
      (js "GET-a-b") = Some tool
    /\ tool_name tool = js "Second".
Proof.
  destruct (@X6_last_operation_of_an_identifier_wins asciiRuntime
              collidingDocument emptyWorld
              (snd (parseOpenAPISpec collidingDocument emptyWorld))
              [(js "/a/b", js "get", summarized "First")] []
              (js "/a-b", js "get", summarized "Second")
              eq_refl eq_refl)
    as (tool & Hdescriptor & Hget).
  - intros later [].
  - exists tool. split; [exact Hget|].
    vm_compute in Hdescriptor. now injection Hdescriptor as <-.
Defined.

Lemma X7_witness :
  exists added,
    alist_keys (tools (snd (parseOpenAPISpec collidingDocument sampleWorld)))
    = alist_keys (tools sampleWorld) ++ added
    /\ (In (js "GET-a-b") added).
Proof.
  destruct (proj1 (@X7_compile_appends_to_the_registry asciiRuntime
                     collidingDocument sampleWorld
                     (snd (parseOpenAPISpec collidingDocument sampleWorld))
                     eq_refl))
    as (added & Hkeys & Hadded).
  exists added. split; [exact Hkeys|]. apply Hadded. split.
  - exists (js "/a/b", js "get", summarized "First").
    split; [left; reflexivity | reflexivity].
  - simpl. intuition discriminate.
Defined.

Lemma X8_witness :
  exists w2,
    parseOpenAPISpec sampleDocument sampleWorld = (inr tt, w2)
    /\ tools w2 = tools sampleWorld.
Proof.
  apply (@X8_recompiling_changes_nothing asciiRuntime
           sampleDocument emptyWorld sampleWorld eq_refl).
  constructor.
Defined.

Lemma X9_witness :
  toolNameOf (Some (js "List_voices")) (js "get") (js "/v1/voices")
  = js "List_voices".
Proof.
  apply (@X9_well_formed_summary_is_the_name asciiRuntime).
  - discriminate.
  - simpl. lia.
  - repeat constructor.
  - reflexivity.
Defined.

Lemma X10_witness :
  methodOf (toolIdOf (js "get") (js "/v1/voices/{voice_id}")) = js "GET".
Proof.
  apply (proj1 (@X10_method_is_recovered asciiRuntime
                  (js "get") (js "/v1/voices/{voice_id}")
                  ltac:(repeat constructor))).
Defined.

Lemma X11_witness :
  pathOf (toolIdOf (js "get") (js "/v1/voices")) = js "/v1/voices".
Proof.
  apply (@X11_plain_paths_are_reconstructed asciiRuntime
           (js "get") (js "v1/voices")).
  - repeat constructor.
  - repeat (constructor; [first [left; reflexivity | right; reflexivity]|]).
    constructor.
Defined.

Lemma X16_witness :
  exists tool toolId,
    resolveTool (tools sampleWorld) VUndefined (VStr (js "GET_id_"))
    = inr (Some tool, Some toolId)
    /\ toolId <> [].
Proof.
  destruct (@X16_listed_tools_are_callable_by_name asciiRuntime
              sampleDocument emptyWorld sampleWorld eq_refl
              ltac:(constructor))
    as (listed & Hlisted & Hcall).
  injection Hlisted as <-.
  destruct (Hcall {| tool_name := js "GET_id_";
                     tool_description := js "Make a GET request to /{id}";
                     inputSchema := emptyInputSchema |} VUndefined)
    as (tool & toolId & Hres & _ & Hne & _).
  - right. right. left. reflexivity.
  - reflexivity.
  - exists tool, toolId. split; [exact Hres | exact Hne].
Defined.

Lemma X15_witness :
  exists cfg,
    shapeArguments (js "GET") (js "https://api.elevenlabs.io/v1/voices") []
      sampleArguments = inr cfg
    /\ (ax_params cfg = None \/ ax_data cfg = None).
Proof.
  eexists. split; [reflexivity|].
  apply (@X15_query_parameters_come_from_arguments asciiRuntime
           (js "GET") (js "https://api.elevenlabs.io/v1/voices") []
           sampleArguments _ eq_refl).
Defined.

Lemma X17_witness :
  exists resolved,
    resolveTool pingRegistry VUndefined (VStr (js "Ping")) = inr resolved
    /\ snd resolved <> Some (js "GET-b").
Proof.
  apply (@X17_a_duplicate_name_hides_the_later_tool asciiRuntime
           pingRegistry [] [] [] (js "GET-a") (js "GET-b")
           pingTool pongTool VUndefined (VStr (js "Ping"))).
  - repeat constructor; simpl; intuition discriminate.
  - reflexivity.
  - reflexivity.
  - reflexivity.
Defined.

Lemma X18_witness :
  Forall (fun tool =>
            wellShapedName (tool_name tool)
            /\ schema_kind (inputSchema tool) = js "object")
    (map snd (tools sampleWorld)).
Proof.
  apply (@X18_the_listing_shows_well_formed_tools asciiRuntime
           sampleDocument emptyWorld sampleWorld eq_refl).
  constructor.
Defined.

Lemma X20_witness :
  match callTool getVoicesCall keyedWorld with
  | (inr sentConfig, _) =>
      alist_get (ax_headers sentConfig) (js "xi-api-key") = Some (js "secret")
      /\ alist_get (ax_headers sentConfig) (js "Content-Type")
         = Some (js "application/json")
  | (inl _, _) => False
  end.
Proof.
  destruct (callTool getVoicesCall keyedWorld) as [[e|sentConfig] w'] eqn:Hrun.
  - vm_compute in Hrun. discriminate Hrun.
  - destruct (@X20_requests_carry_the_configured_headers asciiRuntime
                None keyedEnv getVoicesCall keyedWorld w' sentConfig
                eq_refl Hrun)
      as (Hcontent & Hkey & _).
    split; [exact Hkey | exact Hcontent].
Defined.

